(** * Road_Connections: the graph engine of [road_map.py]

    A shallow embedding of the classes [_Vertex] and [Graph] and of their
    traversal algorithms, with the properties of the specification stated
    and proved over it.

    Python objects are modelled by an arena: every [_Vertex] ever allocated
    sits in the list [objs] of the graph, and a reference to a vertex is its
    index in that list.  A vertex that [add_vertex] has replaced in the
    dictionary stays in the arena, exactly as the Python object stays alive
    in the neighbour sets that still point to it. *)

From stdpp Require Import gmap list.

#[local] Set Warnings "-clear-no-such-hyp".

(** ** Data model *)

(** A reference to a [_Vertex] object: its index in the arena. *)
Abbreviation vid := nat (only parsing).

(** Python's [set.add] on a set kept as a duplicate-free list.  The iteration
    order of a Python set is unspecified; the model iterates in list order,
    and a new element goes to the end.  The predicate [built] below is closed
    under reordering of the neighbour sets, so what is proved for all built
    graphs holds for every iteration order. *)
Definition set_add `{EqDecision A} (x : A) (s : list A) : list A :=
  if decide (x ∈ s) then s else s ++ [x].

Section RoadMap.

(** The items stored in the vertices: any hashable Python value. *)
Context `{HCountable : Countable Item}.

(** class _Vertex: [item] and [neighbours] (references to vertices). *)
Record Vertex := mkVertex {
  item : Item;
  neighbours : list vid
}.

(** class Graph: the arena of vertex objects and the dictionary
    [_vertices], from items to vertex references. *)
Record Graph := mkGraph {
  objs : list Vertex;
  vertices : gmap Item vid
}.

Inductive exn := ValueError.

Inductive outcome (A : Type) :=
  | Returns (a : A)
  | Raises (e : exn).
Arguments Returns {A} a.
Arguments Raises {A} e.

(** Graph.__init__ *)
Definition empty_graph : Graph := mkGraph [] ∅.

(** Graph.add_vertex: [self._vertices[item] = _Vertex(item, set())]. *)
Definition add_vertex (g : Graph) (it : Item) : Graph :=
  mkGraph (objs g ++ [mkVertex it []]) (<[it := length (objs g)]> (vertices g)).

(** [v.neighbours.add(u)] on the vertex object referenced by [v]. *)
Definition add_neighbour (v u : vid) (h : list Vertex) : list Vertex :=
  alter (λ x, mkVertex (item x) (set_add u (neighbours x))) v h.

(** Graph.add_edge: the outcome and the graph after the call. *)
Definition add_edge (g : Graph) (item1 item2 : Item) : outcome unit * Graph :=
  match vertices g !! item1, vertices g !! item2 with
  | Some v1, Some v2 =>
      (Returns tt,
       mkGraph (add_neighbour v2 v1 (add_neighbour v1 v2 (objs g))) (vertices g))
  | _, _ => (Raises ValueError, g)
  end.

(** The neighbour set of the vertex object [v]. *)
Definition nbrs (h : list Vertex) (v : vid) : list vid :=
  from_option neighbours [] (h !! v).

(** [u.item] for the vertex object referenced by [u]. *)
Definition item_at (h : list Vertex) (u : vid) : option Item :=
  item <$> h !! u.

(** Graph.adjacent *)
Definition adjacent (g : Graph) (item1 item2 : Item) : bool :=
  match vertices g !! item1, vertices g !! item2 with
  | Some _, Some v2 =>
      existsb (λ u, bool_decide (item_at (objs g) u = Some item1))
              (nbrs (objs g) v2)
  | _, _ => false
  end.

(** Graph.list_neighbours *)
Definition list_neighbours (g : Graph) (it : Item) : option (list Item) :=
  match vertices g !! it with
  | Some v =>
      Some (omap (item_at (objs g)) (nbrs (objs g) v))
  | None => None
  end.

(** [len(self._vertices[u].neighbours) for u in self._vertices] *)
Definition degrees (g : Graph) : list nat :=
  (λ kv, length (nbrs (objs g) kv.2)) <$> map_to_list (vertices g).

(** Graph.num_edges *)
Definition num_edges (g : Graph) : nat := (sum_list (degrees g) / 2)%nat.

(** Graph.max_degree: Python's [max] raises ValueError on an empty list. *)
Definition max_degree (g : Graph) : outcome nat :=
  match degrees g with
  | [] => Raises ValueError
  | d :: ds => Returns (max_list (d :: ds))
  end.

(** ** Traversals of [_Vertex]

    The three traversals are recursive on the call depth.  They are written
    with a [fuel] argument that bounds the nesting of calls; [None] means
    that the fuel ran out or that a reference pointed outside the arena.
    Neither happens on a graph built by the operations above
    (see the totality lemmas). *)

(** Lines 44-49 of [check_connected]: the loop over [self.neighbours], [rec]
    being the recursive call.  [visited] is one set shared by the whole
    search, so the loop hands it from one call to the next. *)
Definition connected_loop (rec : vid → gset vid → option (bool * gset vid))
    : list vid → gset vid → option (bool * gset vid) :=
  fix loop us visited :=
    match us with
    | [] => Some (false, visited)
    | u :: us =>
        if decide (u ∉ visited) then
          '(found, visited) ← rec u visited;
          if found : bool then Some (true, visited) else loop us visited
        else loop us visited
    end.

(** _Vertex.check_connected: the answer and the set [visited] it leaves. *)
Fixpoint check_connected (fuel : nat) (h : list Vertex) (self : vid)
    (target_item : Item) (visited : gset vid) (depth : Z)
    : option (bool * gset vid) :=
  match fuel with
  | O => None
  | S fuel =>
      if decide (20 < depth)%Z then Some (false, visited)
      else
        v ← h !! self;
        if decide (item v = target_item) then Some (true, visited)
        else
          connected_loop
            (λ u visited,
               check_connected fuel h u target_item visited (depth + 1)%Z)
            (neighbours v) ({[self]} ∪ visited)
  end.

(** The three lists that [check_connected_path] mutates in place. *)
Record pstate := mkPstate {
  visited : list Item;
  path : list Item;
  final_path : list (list Item)
}.

(** Lines 64-69: the counting loop over [range(0, min(len(path), len(last)))]. *)
Definition count_matching (path last : list Item) : nat :=
  foldl (λ count i, if decide (last !! i = path !! i) then S count else count)
        0%nat (seq 0 (length path `min` length last)).

(** Lines 63-73: what happens to [final_path] once the target is met by a
    path that is not yet recorded. *)
Definition record_path (path : list Item) (final_path : list (list Item))
    : list (list Item) :=
  if decide (length final_path ≠ 0%nat) then
    let half := (length path / 3)%nat in
    let last := default [] (final_path !! (length final_path - 1)%nat) in
    let count := count_matching path last in
    if decide (count < length path - half)%nat then final_path ++ [path]
    else final_path
  else final_path ++ [path].

(** Following the words of the specification: the number of positions, over
    the overlapping length, at which the two paths hold the same item. *)
Definition matching (path last : list Item) : nat :=
  length (filter (λ p, p.1 = p.2) (zip last path)).

(** Lines 62-73. *)
Definition visit_target (it target_item : Item) (path : list Item)
    (final_path : list (list Item)) : list (list Item) :=
  if decide (it = target_item ∧ path ∉ final_path)
  then record_path path final_path else final_path.

(** Lines 74-76 of [check_connected_path]: the loop over [self.neighbours],
    [rec] being the recursive call. *)
Definition path_loop (h : list Vertex) (rec : vid → pstate → option pstate)
    : list vid → pstate → option pstate :=
  fix loop us st :=
    match us with
    | [] => Some st
    | i :: us =>
        vi ← h !! i;
        if decide (item vi ∉ visited st) then
          st ← rec i st; loop us st
        else loop us st
    end.

(** _Vertex.check_connected_path.  The recursive call of line 76 does not
    pass [max_depth] on, so every nested call runs with the default 20. *)
Fixpoint check_connected_path (fuel : nat) (h : list Vertex) (self : vid)
    (target_item : Item) (st : pstate) (depth max_depth : Z) : option pstate :=
  match fuel with
  | O => None
  | S fuel =>
      v ← h !! self;
      let st := mkPstate (visited st ++ [item v]) (path st ++ [item v])
                         (final_path st) in
      st ← (if decide (depth ≤ max_depth)%Z then
              let st := mkPstate (visited st) (path st)
                          (visit_target (item v) target_item (path st)
                                        (final_path st)) in
              path_loop h
                (λ i st, check_connected_path fuel h i target_item st
                           (depth + 1)%Z 20%Z)
                (neighbours v) st
            else Some st);
      Some (mkPstate (removelast (visited st)) (removelast (path st))
                     (final_path st))
  end.

(** Lines 79-80: the value that a call returns, given the lists it leaves. *)
Definition returned (st : pstate) : option (list (list Item)) :=
  match path st with
  | [] => Some (final_path st)
  | _ :: _ => None
  end.

(** Lines 96-97 of [check_connected_distance]: [any] over the neighbours that
    are not in [new_visited], [rec] being the recursive call. *)
Definition distance_any (rec : vid → option bool) (new_visited : gset vid)
    : list vid → option bool :=
  fix any us :=
    match us with
    | [] => Some false
    | u :: us =>
        if decide (u ∉ new_visited) then
          r ← rec u; if r : bool then Some true else any us
        else any us
    end.

(** _Vertex.check_connected_distance.  [visited] is copied, not shared. *)
Fixpoint check_connected_distance (fuel : nat) (h : list Vertex) (self : vid)
    (target_item : Item) (visited : gset vid) (d : Z) : option bool :=
  match fuel with
  | O => None
  | S fuel =>
      v ← h !! self;
      if decide (item v = target_item ∧ (0 ≤ d)%Z) then Some true
      else if decide (d < 0)%Z then Some false
      else
        let new_visited := visited ∪ {[self]} in
        distance_any
          (λ u, check_connected_distance fuel h u target_item
                  new_visited (d - 1)%Z)
          new_visited (neighbours v)
  end.

(** ** Queries of [Graph] *)

(** Enough fuel for every traversal: no call is nested deeper than 22. *)
Definition fuel0 : nat := 24.

(** Graph.connected *)
Definition connected (g : Graph) (item1 item2 : Item) : option bool :=
  match vertices g !! item1, vertices g !! item2 with
  | Some v1, Some _ =>
      fst <$> check_connected fuel0 (objs g) v1 item2 ∅ 0%Z
  | _, _ => Some false
  end.

(** Graph.connected_path: the outer [option] is the fuel, the inner one is
    Python's [Optional]. *)
Definition connected_path (g : Graph) (item1 item2 : Item) (max_depth : Z)
    : option (option (list (list Item))) :=
  match vertices g !! item1, vertices g !! item2 with
  | Some v1, Some _ =>
      if decide (max_depth ≤ 20)%Z then
        returned <$> check_connected_path fuel0 (objs g) v1 item2
                       (mkPstate [] [] []) 0%Z max_depth
      else
        returned <$> check_connected_path fuel0 (objs g) v1 item2
                       (mkPstate [] [] []) 0%Z 20%Z
  | _, _ => Some None
  end.

(** Lines 217-221: the first path of minimal length. *)
Definition min_path (paths : list (list Item)) : list Item :=
  foldl (λ min_path p, if decide (length p < length min_path)%nat
                       then p else min_path)
        (default [] (head paths)) paths.

(** Graph.shortest_path *)
Definition shortest_path (g : Graph) (item1 item2 : Item)
    : option (option (list Item)) :=
  paths ← connected_path g item1 item2 20%Z;
  match paths with
  | None | Some [] => Some None
  | Some paths => Some (Some (min_path paths))
  end.

(** Graph.connected_distance *)
Definition connected_distance (g : Graph) (item1 item2 : Item) (d : Z)
    : option bool :=
  if decide (20 < d)%Z then Some false
  else
    match vertices g !! item1, vertices g !! item2 with
    | Some v1, Some _ =>
        check_connected_distance fuel0 (objs g) v1 item2 ∅ d
    | _, _ => Some false
    end.

(** Lines 246-250 of [Graph.read_file]: what the loop does with one record
    of the file, once the line is split into its two items. *)
Definition read_record (g : Graph) (item1 item2 : Item)
    : outcome unit * Graph :=
  let g := if decide (vertices g !! item1 = None) then add_vertex g item1
           else g in
  let g := if decide (vertices g !! item2 = None) then add_vertex g item2
           else g in
  add_edge g item1 item2.

(** Lines 243-250 of [Graph.read_file]: the loop over the records.  An
    exception ends the loop. *)
Fixpoint read_records (g : Graph) (records : list (Item * Item))
    : outcome unit * Graph :=
  match records with
  | [] => (Returns tt, g)
  | (item1, item2) :: records =>
      match read_record g item1 item2 with
      | (Returns _, g) => read_records g records
      | (Raises e, g) => (Raises e, g)
      end
  end.

(** ** The interface of [Graph] as a transition system *)

Inductive call :=
  | AddVertex (it : Item)
  | AddEdge (item1 item2 : Item)
  | Adjacent (item1 item2 : Item)
  | ListNeighbours (it : Item)
  | NumEdges
  | MaxDegree
  | Connected (item1 item2 : Item)
  | ConnectedPath (item1 item2 : Item) (max_depth : Z)
  | ShortestPath (item1 item2 : Item)
  | ConnectedDistance (item1 item2 : Item) (d : Z).

Inductive value :=
  | VNone
  | VBool (b : bool)
  | VInt (n : nat)
  | VItems (l : list Item)
  | VPaths (ps : list (list Item)).

Definition is_query (c : call) : bool :=
  match c with
  | AddVertex _ | AddEdge _ _ => false
  | _ => true
  end.

(** One method call: its outcome and the graph it leaves. *)
Definition step (g : Graph) (c : call) : option (outcome value * Graph) :=
  match c with
  | AddVertex it => Some (Returns VNone, add_vertex g it)
  | AddEdge item1 item2 =>
      let r := add_edge g item1 item2 in
      Some (match r.1 with Returns _ => Returns VNone | Raises e => Raises e end,
            r.2)
  | Adjacent item1 item2 => Some (Returns (VBool (adjacent g item1 item2)), g)
  | ListNeighbours it =>
      Some (Returns (from_option VItems VNone (list_neighbours g it)), g)
  | NumEdges => Some (Returns (VInt (num_edges g)), g)
  | MaxDegree =>
      Some (match max_degree g with
            | Returns n => Returns (VInt n)
            | Raises e => Raises e
            end, g)
  | Connected item1 item2 =>
      b ← connected g item1 item2; Some (Returns (VBool b), g)
  | ConnectedPath item1 item2 max_depth =>
      r ← connected_path g item1 item2 max_depth;
      Some (Returns (from_option VPaths VNone r), g)
  | ShortestPath item1 item2 =>
      r ← shortest_path g item1 item2;
      Some (Returns (from_option VItems VNone r), g)
  | ConnectedDistance item1 item2 d =>
      b ← connected_distance g item1 item2 d; Some (Returns (VBool b), g)
  end.

(** ** The methods as programs over the object store

    The same methods once more, written the way the Python code runs: a
    program takes the store (the arena of vertex objects and the
    dictionary) and hands it on, every access to [self._vertices],
    [v.item] or [v.neighbours] is a read of the store, and every
    assignment or [set.add] on a vertex is a write.  The containers that a
    query allocates for itself ([visited], [path], [final_path]) are passed
    along as before.  [None] stands for a stuck run (no fuel left, or a
    reference outside the arena). *)
Definition prog (A : Type) : Type := Graph → option (A * Graph).

Definition ret {A} (a : A) : prog A := λ g, Some (a, g).

Definition bind {A B} (m : prog A) (k : A → prog B) : prog B :=
  λ g, match m g with
       | Some (a, g') => k a g'
       | None => None
       end.

Definition stuck {A} : prog A := λ _, None.

Notation "x <~ y ; z" := (bind y (λ x, z))
  (at level 20, y at level 100, z at level 200, only parsing).

(** Reads of the store. *)
Definition get_vertices : prog (gmap Item vid) := λ g, Some (vertices g, g).

Definition get_item (v : vid) : prog Item :=
  λ g, x ← objs g !! v; Some (item x, g).

Definition get_neighbours (v : vid) : prog (list vid) :=
  λ g, x ← objs g !! v; Some (neighbours x, g).

(** Writes to the store: [_Vertex(item, set())], [self._vertices[item] = v]
    and [v.neighbours.add(u)]. *)
Definition new_vertex (it : Item) : prog vid :=
  λ g, Some (length (objs g), mkGraph (objs g ++ [mkVertex it []]) (vertices g)).

Definition set_vertex (it : Item) (v : vid) : prog unit :=
  λ g, Some (tt, mkGraph (objs g) (<[it := v]> (vertices g))).

Definition neighbours_add (v u : vid) : prog unit :=
  λ g, Some (tt, mkGraph (add_neighbour v u (objs g)) (vertices g)).

(** [f(x) for x in l], run left to right. *)
Fixpoint map_prog {A B} (f : A → prog B) (l : list A) : prog (list B) :=
  match l with
  | [] => ret []
  | x :: l => y <~ f x; ys <~ map_prog f l; ret (y :: ys)
  end.

(** Graph.add_vertex *)
Definition add_vertexM (it : Item) : prog unit :=
  v <~ new_vertex it; set_vertex it v.

(** Graph.add_edge *)
Definition add_edgeM (item1 item2 : Item) : prog (outcome unit) :=
  vs <~ get_vertices;
  match vs !! item1, vs !! item2 with
  | Some v1, Some v2 =>
      _ <~ neighbours_add v1 v2;
      _ <~ neighbours_add v2 v1;
      ret (Returns tt)
  | _, _ => ret (Raises ValueError)
  end.

(** [any(u.item == item1 for u in us)] *)
Fixpoint any_itemM (item1 : Item) (us : list vid) : prog bool :=
  match us with
  | [] => ret false
  | u :: us =>
      it <~ get_item u;
      if decide (it = item1) then ret true else any_itemM item1 us
  end.

(** Graph.adjacent *)
Definition adjacentM (item1 item2 : Item) : prog bool :=
  vs <~ get_vertices;
  match vs !! item1, vs !! item2 with
  | Some _, Some v2 => ns <~ get_neighbours v2; any_itemM item1 ns
  | _, _ => ret false
  end.

(** Graph.list_neighbours *)
Definition list_neighboursM (it : Item) : prog (option (list Item)) :=
  vs <~ get_vertices;
  match vs !! it with
  | Some v =>
      ns <~ get_neighbours v; l <~ map_prog get_item ns; ret (Some l)
  | None => ret None
  end.

(** [len(self._vertices[u].neighbours) for u in self._vertices] *)
Definition degreesM : prog (list nat) :=
  vs <~ get_vertices;
  map_prog (λ kv, ns <~ get_neighbours kv.2; ret (length ns)) (map_to_list vs).

(** Graph.num_edges *)
Definition num_edgesM : prog nat :=
  ds <~ degreesM; ret (sum_list ds / 2)%nat.

(** Graph.max_degree *)
Definition max_degreeM : prog (outcome nat) :=
  ds <~ degreesM;
  ret (match ds with
       | [] => Raises ValueError
       | d :: ds => Returns (max_list (d :: ds))
       end).

(** _Vertex.check_connected, lines 44-49. *)
Definition connected_loopM (rec : vid → gset vid → prog (bool * gset vid))
    : list vid → gset vid → prog (bool * gset vid) :=
  fix loop us visited :=
    match us with
    | [] => ret (false, visited)
    | u :: us =>
        if decide (u ∉ visited) then
          r <~ rec u visited;
          if r.1 : bool then ret (true, r.2) else loop us r.2
        else loop us visited
    end.

(** _Vertex.check_connected *)
Fixpoint check_connectedM (fuel : nat) (self : vid) (target_item : Item)
    (visited : gset vid) (depth : Z) : prog (bool * gset vid) :=
  match fuel with
  | O => stuck
  | S fuel =>
      if decide (20 < depth)%Z then ret (false, visited)
      else
        it <~ get_item self;
        if decide (it = target_item) then ret (true, visited)
        else
          ns <~ get_neighbours self;
          connected_loopM
            (λ u visited,
               check_connectedM fuel u target_item visited (depth + 1)%Z)
            ns ({[self]} ∪ visited)
  end.

(** _Vertex.check_connected_path, lines 74-76. *)
Definition path_loopM (rec : vid → pstate → prog pstate)
    : list vid → pstate → prog pstate :=
  fix loop us st :=
    match us with
    | [] => ret st
    | i :: us =>
        it <~ get_item i;
        if decide (it ∉ visited st) then
          st <~ rec i st; loop us st
        else loop us st
    end.

(** _Vertex.check_connected_path *)
Fixpoint check_connected_pathM (fuel : nat) (self : vid) (target_item : Item)
    (st : pstate) (depth max_depth : Z) : prog pstate :=
  match fuel with
  | O => stuck
  | S fuel =>
      it <~ get_item self;
      let st := mkPstate (visited st ++ [it]) (path st ++ [it])
                         (final_path st) in
      st <~ (if decide (depth ≤ max_depth)%Z then
               let st := mkPstate (visited st) (path st)
                           (visit_target it target_item (path st)
                                         (final_path st)) in
               ns <~ get_neighbours self;
               path_loopM
                 (λ i st, check_connected_pathM fuel i target_item st
                            (depth + 1)%Z 20%Z)
                 ns st
             else ret st);
      ret (mkPstate (removelast (visited st)) (removelast (path st))
                    (final_path st))
  end.

(** _Vertex.check_connected_distance, lines 96-97. *)
Definition distance_anyM (rec : vid → prog bool) (new_visited : gset vid)
    : list vid → prog bool :=
  fix any us :=
    match us with
    | [] => ret false
    | u :: us =>
        if decide (u ∉ new_visited) then
          r <~ rec u; if r : bool then ret true else any us
        else any us
    end.

(** _Vertex.check_connected_distance *)
Fixpoint check_connected_distanceM (fuel : nat) (self : vid)
    (target_item : Item) (visited : gset vid) (d : Z) : prog bool :=
  match fuel with
  | O => stuck
  | S fuel =>
      it <~ get_item self;
      if decide (it = target_item ∧ (0 ≤ d)%Z) then ret true
      else if decide (d < 0)%Z then ret false
      else
        let new_visited := visited ∪ {[self]} in
        ns <~ get_neighbours self;
        distance_anyM
          (λ u, check_connected_distanceM fuel u target_item
                  new_visited (d - 1)%Z)
          new_visited ns
  end.

(** Graph.connected *)
Definition connectedM (item1 item2 : Item) : prog bool :=
  vs <~ get_vertices;
  match vs !! item1, vs !! item2 with
  | Some v1, Some _ =>
      r <~ check_connectedM fuel0 v1 item2 ∅ 0%Z; ret r.1
  | _, _ => ret false
  end.

(** Graph.connected_path *)
Definition connected_pathM (item1 item2 : Item) (max_depth : Z)
    : prog (option (list (list Item))) :=
  vs <~ get_vertices;
  match vs !! item1, vs !! item2 with
  | Some v1, Some _ =>
      if decide (max_depth ≤ 20)%Z then
        st <~ check_connected_pathM fuel0 v1 item2 (mkPstate [] [] [])
                0%Z max_depth;
        ret (returned st)
      else
        st <~ check_connected_pathM fuel0 v1 item2 (mkPstate [] [] [])
                0%Z 20%Z;
        ret (returned st)
  | _, _ => ret None
  end.

(** Graph.shortest_path *)
Definition shortest_pathM (item1 item2 : Item) : prog (option (list Item)) :=
  paths <~ connected_pathM item1 item2 20%Z;
  ret (match paths with
       | None | Some [] => None
       | Some paths => Some (min_path paths)
       end).

(** Graph.connected_distance *)
Definition connected_distanceM (item1 item2 : Item) (d : Z) : prog bool :=
  if decide (20 < d)%Z then ret false
  else
    vs <~ get_vertices;
    match vs !! item1, vs !! item2 with
    | Some v1, Some _ => check_connected_distanceM fuel0 v1 item2 ∅ d
    | _, _ => ret false
    end.

(** One method call, run on the store. *)
Definition execM (c : call) : prog (outcome value) :=
  match c with
  | AddVertex it => _ <~ add_vertexM it; ret (Returns VNone)
  | AddEdge item1 item2 =>
      r <~ add_edgeM item1 item2;
      ret (match r with Returns _ => Returns VNone | Raises e => Raises e end)
  | Adjacent item1 item2 =>
      r <~ adjacentM item1 item2; ret (Returns (VBool r))
  | ListNeighbours it =>
      r <~ list_neighboursM it; ret (Returns (from_option VItems VNone r))
  | NumEdges => n <~ num_edgesM; ret (Returns (VInt n))
  | MaxDegree =>
      r <~ max_degreeM;
      ret (match r with Returns n => Returns (VInt n) | Raises e => Raises e end)
  | Connected item1 item2 =>
      r <~ connectedM item1 item2; ret (Returns (VBool r))
  | ConnectedPath item1 item2 max_depth =>
      r <~ connected_pathM item1 item2 max_depth;
      ret (Returns (from_option VPaths VNone r))
  | ShortestPath item1 item2 =>
      r <~ shortest_pathM item1 item2;
      ret (Returns (from_option VItems VNone r))
  | ConnectedDistance item1 item2 d =>
      r <~ connected_distanceM item1 item2 d; ret (Returns (VBool r))
  end.

(** Python does not say in which order a set is iterated.  [reordered g g']
    holds when [g'] is [g] with its neighbour sets listed in another order:
    the same graph, seen by a run that iterates differently. *)
Definition reordered (g g' : Graph) : Prop :=
  vertices g' = vertices g ∧ length (objs g') = length (objs g)
  ∧ ∀ v, item_at (objs g') v = item_at (objs g) v
         ∧ nbrs (objs g') v ≡ₚ nbrs (objs g) v.

(** Graphs built from the empty graph by [add_vertex] and [add_edge], with
    every iteration order of their neighbour sets. *)
Inductive built : Graph → Prop :=
  | built_empty : built empty_graph
  | built_add_vertex g it : built g → built (add_vertex g it)
  | built_add_edge g item1 item2 : built g → built (add_edge g item1 item2).2
  | built_reorder g g' : built g → reordered g g' → built g'.

(** The same, where [add_vertex] is only called for an item that is not yet
    present (its documented precondition). *)
Inductive built_fresh : Graph → Prop :=
  | built_fresh_empty : built_fresh empty_graph
  | built_fresh_add_vertex g it :
      built_fresh g → vertices g !! it = None → built_fresh (add_vertex g it)
  | built_fresh_add_edge g item1 item2 :
      built_fresh g → built_fresh (add_edge g item1 item2).2
  | built_fresh_reorder g g' : built_fresh g → reordered g g' → built_fresh g'.

(** The same, every call meeting the documented preconditions: a vertex is
    added for an item not yet present, an edge joins two distinct items that
    are present. *)
Inductive built_pre : Graph → Prop :=
  | built_pre_empty : built_pre empty_graph
  | built_pre_add_vertex g it :
      built_pre g → vertices g !! it = None → built_pre (add_vertex g it)
  | built_pre_add_edge g item1 item2 :
      built_pre g → item1 ≠ item2 →
      is_Some (vertices g !! item1) → is_Some (vertices g !! item2) →
      built_pre (add_edge g item1 item2).2
  | built_pre_reorder g g' : built_pre g → reordered g g' → built_pre g'.

(** Running a list of calls from the empty graph. *)
Definition run (cs : list call) : Graph :=
  foldl (λ g c, from_option snd g (step g c)) empty_graph cs.

(** The calls of [cs], run from [g], meet the documented preconditions:
    [add_vertex] gets a new item, and (when [edges] is set) [add_edge] gets
    two distinct items that are present. *)
Fixpoint meets_pre (edges : bool) (g : Graph) (cs : list call) : bool :=
  match cs with
  | [] => true
  | c :: cs =>
      match c with
      | AddVertex it => bool_decide (vertices g !! it = None)
      | AddEdge item1 item2 =>
          negb edges ||
          bool_decide (item1 ≠ item2 ∧ is_Some (vertices g !! item1)
                       ∧ is_Some (vertices g !! item2))
      | _ => true
      end && meets_pre edges (from_option snd g (step g c)) cs
  end.

(** What a call of [check_connected_path] does to the three lists: [visited]
    and [path] are as before, [final_path] stays free of duplicates, and
    every path that is new in [final_path] ends with the target and starts
    with [pre]. *)
Definition path_step (target_item : Item) (pre : list Item)
    (st st' : pstate) : Prop :=
  visited st' = visited st ∧ path st' = path st
  ∧ (NoDup (final_path st) → NoDup (final_path st'))
  ∧ ∀ p, p ∈ final_path st' →
         p ∈ final_path st ∨ (last p = Some target_item ∧ pre `prefix_of` p).

(** ** Paths in the arena *)

(** [w] is in the neighbour set of [u]. *)
Definition edge (h : list Vertex) (u w : vid) : Prop := w ∈ nbrs h u.

(** A walk: every vertex of the list is followed by one of its neighbours. *)
Fixpoint walk (h : list Vertex) (p : list vid) : Prop :=
  match p with
  | u :: (w :: _) as p' => edge h u w ∧ walk h p'
  | _ => True
  end.

(** A simple path from [u] to [w]: a walk without repeated vertex. *)
Definition simple_path (h : list Vertex) (u w : vid) (p : list vid) : Prop :=
  head p = Some u ∧ last p = Some w ∧ walk h p ∧ NoDup p.

(** The vertices within [k] edges of [u]. *)
Fixpoint ball (h : list Vertex) (k : nat) (u : vid) : gset vid :=
  match k with
  | O => {[u]}
  | S k => let b := ball h k u in
           b ∪ ⋃ ((λ x, list_to_set (nbrs h x)) <$> elements b)
  end.

(** What a failed search leaves: [V'] extends [V] inside the arena, and every
    vertex that is new in [V'] does not hold the target and has all its
    neighbours in [V']. *)
Definition explored (h : list Vertex) (target_item : Item)
    (V V' : gset vid) : Prop :=
  V ⊆ V' ∧ (∀ x, x ∈ V' → (x < length h)%nat)
  ∧ ∀ x, x ∈ V' → x ∉ V →
         item_at h x ≠ Some target_item ∧ ∀ y, edge h x y → y ∈ V'.

(** A simple path of at most [n] vertices from [u] to a vertex holding
    [target_item], through no vertex of [V]. *)
Definition found_path (h : list Vertex) (target_item : Item) (n : Z)
    (V : gset vid) (u : vid) : Prop :=
  ∃ w p, simple_path h u w p ∧ item_at h w = Some target_item
         ∧ (∀ x, x ∈ p → x ∉ V) ∧ (Z.of_nat (length p) ≤ n)%Z.

(** The vertices of [vs] hold, in order, the items of [p]. *)
Definition labelled (h : list Vertex) (vs : list vid) (p : list Item) : Prop :=
  Forall2 (λ w x, item_at h w = Some x) vs p.

(** The item sequence [p] is read off a walk of the arena that starts with
    [vs]; it repeats no item and has at most 21 items. *)
Definition traced (h : list Vertex) (vs : list vid) (p : list Item) : Prop :=
  ∃ rest, walk h (vs ++ rest) ∧ labelled h (vs ++ rest) p
          ∧ NoDup p ∧ (length p ≤ 21)%nat.

(** ** Well-formed graphs *)

(** Neighbour sets only hold references into the arena. *)
Definition wf_arena (h : list Vertex) : Prop :=
  ∀ v u, u ∈ nbrs h v → (u < length h)%nat.

(** Every key of the dictionary maps to a vertex holding that key. *)
Definition wf_keys (g : Graph) : Prop :=
  ∀ k v, vertices g !! k = Some v → item_at (objs g) v = Some k.

(** Every vertex of the arena is the one the dictionary has for its item. *)
Definition no_stale (g : Graph) : Prop :=
  ∀ v k, item_at (objs g) v = Some k → vertices g !! k = Some v.

(** The neighbour relation is symmetric. *)
Definition symmetric (h : list Vertex) : Prop :=
  ∀ u w, edge h u w → edge h w u.

(** No vertex is its own neighbour. *)
Definition loop_free (h : list Vertex) : Prop :=
  ∀ u, ¬ edge h u u.

End RoadMap.

Arguments Returns {_} _.
Arguments Raises {_} _.

(** ** Example graphs, with natural numbers as items *)

(** The road A - B - C - D. *)
Definition chain : Graph (Item:=nat) :=
  run [AddVertex 1; AddVertex 2; AddVertex 3; AddVertex 4;
       AddEdge 1 2; AddEdge 2 3; AddEdge 3 4].

(** A ring of the 21 vertices 0..20 with the vertex 21 hanging off vertex 20.
    The edge that closes the ring is added last. *)
Definition ring_calls : list (call (Item:=nat)) :=
  (AddVertex <$> seq 0 22) ++ ((λ i, AddEdge i (S i)) <$> seq 0 21)
  ++ [AddEdge 0 20].

Definition ring : Graph (Item:=nat) := run ring_calls.

(** The same ring, the closing edge added first. *)
Definition ring' : Graph (Item:=nat) :=
  run ((AddVertex <$> seq 0 22) ++ [AddEdge 0 20]
       ++ ((λ i, AddEdge i (S i)) <$> seq 0 21)).


(** An edge between 1 and 2, then the vertex of 1 is added again. *)
Definition readded : Graph (Item:=nat) :=
  run [AddVertex 1; AddVertex 2; AddEdge 1 2; AddVertex 1].

(** ** Properties *)

Section Properties.

Context `{HCountable : Countable Item}.
Implicit Types (g : Graph (Item:=Item)) (h : list (Vertex (Item:=Item))).
Implicit Types (u v w : nat) (it a b : Item).
Implicit Types (c : call (Item:=Item)) (cs : list (call (Item:=Item))).
Implicit Types (st : pstate (Item:=Item)) (target_item : Item).
Implicit Types (pre : list Item) (fp : list (list Item)).
Implicit Types (rs : list (Item * Item)).

Lemma elem_of_set_add `{EqDecision A} (x y : A) (s : list A) :
  x ∈ set_add y s ↔ x = y ∨ x ∈ s.
Proof.
  unfold set_add. case_decide.
  - split; [auto | intros [->|]; done].
  - rewrite elem_of_app, list_elem_of_singleton. tauto.
Qed.

Lemma set_add_idemp `{EqDecision A} (y : A) (s : list A) :
  set_add y (set_add y s) = set_add y s.
Proof.
  unfold set_add at 1. rewrite decide_True; [done|].
  apply elem_of_set_add. by left.
Qed.

Lemma length_add_neighbour v u h : length (add_neighbour v u h) = length h.
Proof. apply length_alter. Qed.

Lemma item_at_add_neighbour v u h w :
  item_at (add_neighbour v u h) w = item_at h w.
Proof.
  unfold item_at, add_neighbour. destruct (decide (v = w)) as [->|].
  - rewrite list_lookup_alter_eq. by destruct (h !! w).
  - by rewrite list_lookup_alter_ne.
Qed.

Lemma nbrs_add_neighbour v u h w :
  nbrs (add_neighbour v u h) w =
  if decide (w = v ∧ (v < length h)%nat) then set_add u (nbrs h w) else nbrs h w.
Proof.
  unfold nbrs, add_neighbour. case_decide as Hd.
  - destruct Hd as [-> Hlt]. rewrite list_lookup_alter_eq.
    destruct (lookup_lt_is_Some_2 h v Hlt) as [V ->]. done.
  - destruct (decide (v = w)) as [->|]; [|by rewrite list_lookup_alter_ne].
    rewrite list_lookup_alter_eq.
    destruct (h !! w) eqn:E; [|done].
    apply lookup_lt_Some in E. tauto.
Qed.

Lemma edge_add_neighbour v u h x y :
  edge (add_neighbour v u h) x y ↔
  edge h x y ∨ (x = v ∧ y = u ∧ (v < length h)%nat).
Proof.
  unfold edge. rewrite nbrs_add_neighbour. case_decide as Hd.
  - rewrite elem_of_set_add. naive_solver.
  - naive_solver.
Qed.

Lemma item_at_lt h v k : item_at h v = Some k → (v < length h)%nat.
Proof.
  unfold item_at. destruct (h !! v) eqn:E; [|done].
  intros _. by apply lookup_lt_Some in E.
Qed.

Lemma nbrs_snoc h it v : nbrs (h ++ [mkVertex it []]) v = nbrs h v.
Proof.
  unfold nbrs. destruct (decide (v < length h)%nat).
  - by rewrite lookup_app_l.
  - rewrite lookup_app_r by lia. rewrite (lookup_ge_None_2 h v) by lia.
    by destruct (v - length h)%nat as [|[|?]].
Qed.

Lemma item_at_snoc h it v :
  item_at (h ++ [mkVertex it []]) v =
  if decide (v = length h) then Some it else item_at h v.
Proof.
  unfold item_at. case_decide as Hd.
  - subst. by rewrite list_lookup_middle.
  - destruct (decide (v < length h)%nat).
    + by rewrite lookup_app_l.
    + rewrite lookup_app_r by lia. rewrite (lookup_ge_None_2 h v) by lia.
      destruct (v - length h)%nat as [|[|?]] eqn:E; [lia|done..].
Qed.

Lemma edge_snoc h it u w : edge (h ++ [mkVertex it []]) u w ↔ edge h u w.
Proof. unfold edge. by rewrite nbrs_snoc. Qed.

(** What [add_edge] leaves, case by case. *)
Lemma add_edge_present g item1 item2 v1 v2 :
  vertices g !! item1 = Some v1 → vertices g !! item2 = Some v2 →
  add_edge g item1 item2 =
  (Returns tt,
   mkGraph (add_neighbour v2 v1 (add_neighbour v1 v2 (objs g))) (vertices g)).
Proof. intros H1 H2. unfold add_edge. by rewrite H1, H2. Qed.

Lemma add_edge_absent g item1 item2 :
  vertices g !! item1 = None ∨ vertices g !! item2 = None →
  add_edge g item1 item2 = (Raises ValueError, g).
Proof.
  intros Hn. unfold add_edge.
  destruct (vertices g !! item1), (vertices g !! item2); naive_solver.
Qed.

Lemma add_edge_cases g item1 item2 :
  (∃ v1 v2, vertices g !! item1 = Some v1 ∧ vertices g !! item2 = Some v2 ∧
     add_edge g item1 item2 =
     (Returns tt,
      mkGraph (add_neighbour v2 v1 (add_neighbour v1 v2 (objs g))) (vertices g)))
  ∨ ((vertices g !! item1 = None ∨ vertices g !! item2 = None) ∧
     add_edge g item1 item2 = (Raises ValueError, g)).
Proof.
  destruct (vertices g !! item1) as [v1|] eqn:E1;
    [destruct (vertices g !! item2) as [v2|] eqn:E2|].
  - left. exists v1, v2. eauto using add_edge_present.
  - right. eauto using add_edge_absent.
  - right. eauto using add_edge_absent.
Qed.

Lemma edge_add_edge h v1 v2 x y :
  (v1 < length h)%nat → (v2 < length h)%nat →
  edge (add_neighbour v2 v1 (add_neighbour v1 v2 h)) x y ↔
  edge h x y ∨ (x = v1 ∧ y = v2) ∨ (x = v2 ∧ y = v1).
Proof.
  intros Hv1 Hv2. rewrite !edge_add_neighbour, length_add_neighbour.
  naive_solver.
Qed.

Lemma item_at_add_edge h v1 v2 w :
  item_at (add_neighbour v2 v1 (add_neighbour v1 v2 h)) w = item_at h w.
Proof. by rewrite !item_at_add_neighbour. Qed.

(** Invariants of every graph built by [add_vertex] and [add_edge]. *)
Lemma built_wf g : built g → wf_arena (objs g) ∧ wf_keys g.
Proof.
  induction 1 as [|g it _ [IHa IHk]|g item1 item2 _ [IHa IHk]
                  |g g' _ [IHa IHk] (Hv & Hl & Hn)].
  4:{ split.
      - intros v u Hu. rewrite Hl. apply (IHa v).
        destruct (Hn v) as [_ Hp]. by rewrite <- Hp.
      - intros k v Hk. destruct (Hn v) as [-> _]. apply IHk. by rewrite <- Hv. }
  - split; [intros v u Hu; by apply elem_of_nil in Hu | intros k v Hk; done].
  - split.
    + intros v u. cbn. rewrite nbrs_snoc, length_app. intros Hu.
      apply IHa in Hu. lia.
    + intros k v. cbn. rewrite item_at_snoc.
      destruct (decide (it = k)) as [->|Hne].
      * rewrite lookup_insert_eq. intros [= <-]. by rewrite decide_True.
      * rewrite lookup_insert_ne by done. intros Hk.
        pose proof (IHk _ _ Hk) as Hi. pose proof (item_at_lt _ _ _ Hi).
        rewrite decide_False by lia. done.
  - destruct (add_edge_cases g item1 item2)
      as [(v1 & v2 & E1 & E2 & ->)|[_ ->]]; [|done].
    pose proof (item_at_lt _ _ _ (IHk _ _ E1)) as Hv1.
    pose proof (item_at_lt _ _ _ (IHk _ _ E2)) as Hv2.
    split.
    + intros v u. cbn. rewrite !length_add_neighbour.
      intros Hu. apply (edge_add_edge _ _ _ v u Hv1 Hv2) in Hu.
      destruct Hu as [Hu|[[-> ->]|[-> ->]]]; [by apply IHa in Hu|done..].
    + intros k v. cbn. rewrite item_at_add_edge. apply IHk.
Qed.

Lemma built_fresh_built g : built_fresh g → built g.
Proof. induction 1; eauto using built. Qed.

Lemma built_pre_fresh g : built_pre g → built_fresh g.
Proof. induction 1; eauto using built_fresh. Qed.

Lemma reordered_edge g g' u w :
  reordered g g' → edge (objs g') u w ↔ edge (objs g) u w.
Proof.
  intros (_ & _ & Hn). unfold edge. destruct (Hn u) as [_ Hp]. by rewrite Hp.
Qed.

Lemma built_vertex_lt g k v :
  built g → vertices g !! k = Some v → (v < length (objs g))%nat.
Proof.
  intros Hb Hk. apply built_wf in Hb as [_ Hkeys].
  eapply item_at_lt, Hkeys, Hk.
Qed.

(** Without a second [add_vertex] for the same item, no vertex object is
    stale and the neighbour relation is symmetric. *)
Lemma built_fresh_inv g :
  built_fresh g → no_stale g ∧ symmetric (objs g).
Proof.
  induction 1 as [|g it Hb [IHs IHy] Hnew|g item1 item2 Hb [IHs IHy]
                  |g g' Hb [IHs IHy] Hre].
  4:{ split.
      - intros v k. destruct Hre as (-> & _ & Hn). destruct (Hn v) as [-> _].
        apply IHs.
      - intros u w. rewrite !(reordered_edge g g') by done. apply IHy. }
  - split; [intros v k Hk; done | intros u w Hu; by apply elem_of_nil in Hu].
  - split.
    + intros v k. cbn. rewrite item_at_snoc. case_decide as Hd.
      * intros [= <-]. subst v. by rewrite lookup_insert_eq.
      * intros Hi. pose proof (IHs _ _ Hi) as Hk.
        rewrite lookup_insert_ne; [done|]. intros ->. congruence.
    + intros u w. cbn. rewrite !edge_snoc. apply IHy.
  - destruct (add_edge_cases g item1 item2)
      as [(v1 & v2 & E1 & E2 & ->)|[_ ->]]; [|done].
    pose proof (built_vertex_lt _ _ _ (built_fresh_built _ Hb) E1) as Hv1.
    pose proof (built_vertex_lt _ _ _ (built_fresh_built _ Hb) E2) as Hv2.
    split.
    + intros v k. cbn. rewrite item_at_add_edge. apply IHs.
    + intros u w. cbn. rewrite !(edge_add_edge _ _ _ _ _ Hv1 Hv2).
      intros [Hu|[[-> ->]|[-> ->]]]; [left; by apply IHy|tauto..].
Qed.

(** With distinct endpoints for every edge, no vertex is its own neighbour. *)
Lemma built_pre_loop_free g : built_pre g → loop_free (objs g).
Proof.
  induction 1 as [|g it Hb IH Hnew|g item1 item2 Hb IH Hne Hp1 Hp2
                  |g g' Hb IH Hre].
  4:{ intros u. rewrite (reordered_edge g g') by done. apply IH. }
  - intros u Hu. by apply elem_of_nil in Hu.
  - intros u. cbn. rewrite edge_snoc. apply IH.
  - destruct (add_edge_cases g item1 item2)
      as [(v1 & v2 & E1 & E2 & ->)|[_ ->]]; [|done].
    pose proof (built_fresh_built _ (built_pre_fresh _ Hb)) as Hbb.
    pose proof (built_vertex_lt _ _ _ Hbb E1) as Hv1.
    pose proof (built_vertex_lt _ _ _ Hbb E2) as Hv2.
    apply built_wf in Hbb as [_ Hkeys].
    intros u. cbn. rewrite (edge_add_edge _ _ _ _ _ Hv1 Hv2).
    intros [Hu|[[-> <-]|[-> <-]]]; [by apply IH in Hu|..].
    + apply Hkeys in E1, E2. congruence.
    + apply Hkeys in E1, E2. congruence.
Qed.

(** Graphs obtained by running calls are built graphs. *)
Lemma step_built g c r g' : built g → step g c = Some (r, g') → built g'.
Proof.
  intros Hb. destruct c; cbn; intros Hs; simplify_option_eq;
    try done; by constructor.
Qed.

Lemma foldl_step_built g cs :
  built g → built (foldl (λ g c, from_option snd g (step g c)) g cs).
Proof.
  revert g. induction cs as [|c cs IH]; intros g Hb; [done|].
  cbn [foldl]. apply IH. destruct (step g c) as [[r g']|] eqn:E; [|done].
  cbn. eapply step_built; eauto.
Qed.

Lemma run_built cs : built (run cs).
Proof. unfold run. apply foldl_step_built. constructor. Qed.

Lemma step_query_graph g c r g' :
  is_query c = true → step g c = Some (r, g') → g' = g.
Proof. destruct c; cbn; intros Hq Hs; simplify_option_eq; done. Qed.

Lemma foldl_step_built_fresh g cs :
  built_fresh g → meets_pre false g cs = true →
  built_fresh (foldl (λ g c, from_option snd g (step g c)) g cs).
Proof.
  revert g. induction cs as [|c cs IH]; intros g Hb Hc; [done|].
  cbn [foldl]. cbn [meets_pre] in Hc. apply andb_true_iff in Hc as [Hc1 Hc2].
  apply IH; [|done]. clear IH Hc2.
  destruct (step g c) as [[r g']|] eqn:E; [|done]. cbn.
  destruct c; try (by apply (step_query_graph g _ r g') in E as ->).
  - cbn in E. simplify_eq. apply bool_decide_eq_true in Hc1.
    by constructor.
  - cbn in E. simplify_eq. by constructor.
Qed.

Lemma foldl_step_built_pre g cs :
  built_pre g → meets_pre true g cs = true →
  built_pre (foldl (λ g c, from_option snd g (step g c)) g cs).
Proof.
  revert g. induction cs as [|c cs IH]; intros g Hb Hc; [done|].
  cbn [foldl]. cbn [meets_pre] in Hc. apply andb_true_iff in Hc as [Hc1 Hc2].
  apply IH; [|done]. clear IH Hc2.
  destruct (step g c) as [[r g']|] eqn:E; [|done]. cbn.
  destruct c; try (by apply (step_query_graph g _ r g') in E as ->).
  - cbn in E. simplify_eq. apply bool_decide_eq_true in Hc1.
    by constructor.
  - cbn in E. simplify_eq. cbn in Hc1. apply bool_decide_eq_true in Hc1.
    destruct Hc1 as (?&?&?). by constructor.
Qed.

Lemma run_built_fresh cs : meets_pre false empty_graph cs = true → built_fresh (run cs).
Proof. unfold run. apply foldl_step_built_fresh. constructor. Qed.

Lemma run_built_pre cs : meets_pre true empty_graph cs = true → built_pre (run cs).
Proof. unfold run. apply foldl_step_built_pre. constructor. Qed.

Lemma add_neighbour_already v u h : edge h v u → add_neighbour v u h = h.
Proof.
  unfold edge, nbrs, add_neighbour. intros Hu. apply list_eq. intros j.
  destruct (decide (v = j)) as [->|]; [|by rewrite list_lookup_alter_ne].
  rewrite list_lookup_alter_eq. destruct (h !! j) as [[i ns]|]; [|done].
  cbn in *. unfold set_add. by rewrite decide_True.
Qed.

Lemma adjacent_true g a b :
  adjacent g a b = true ↔
  ∃ va vb u, vertices g !! a = Some va ∧ vertices g !! b = Some vb ∧
             edge (objs g) vb u ∧ item_at (objs g) u = Some a.
Proof.
  unfold adjacent, edge.
  destruct (vertices g !! a) as [va|]; [|naive_solver].
  destruct (vertices g !! b) as [vb|]; [|naive_solver].
  rewrite existsb_exists. setoid_rewrite <- list_elem_of_In.
  setoid_rewrite bool_decide_eq_true. naive_solver.
Qed.

(** C4, amended. For every graph built by [add_edge] calls and by
    [add_vertex] calls for items not yet present, and all items a and b,
    [adjacent(a, b) == adjacent(b, a)]. *)
Theorem adjacent_symmetric g a b :
  built_fresh g → adjacent g a b = adjacent g b a.
Proof.
  intros Hb. destruct (built_fresh_inv g Hb) as [Hs Hy].
  assert (∀ x y, adjacent g x y = true → adjacent g y x = true) as Hone.
  { intros x y. rewrite !adjacent_true.
    intros (vx & vy & u & Ex & Ey & Hu & Hi).
    apply Hs in Hi. assert (u = vx) as -> by congruence.
    exists vy, vx, vy. split_and!; try done.
    - by apply Hy.
    - apply built_fresh_built, built_wf in Hb as [_ Hkeys]. by apply Hkeys. }
  destruct (adjacent g a b) eqn:E1, (adjacent g b a) eqn:E2; try done.
  - apply Hone in E1. congruence.
  - apply Hone in E2. congruence.
Qed.

(** C5. Every graph reached from the empty graph by [add_vertex] calls for
    items not yet present and [add_edge] calls with two distinct, present
    items satisfies: each key of the dictionary maps to a vertex whose item
    is that key; A is a neighbour of B iff B is a neighbour of A; and no
    vertex is its own neighbour. *)
Theorem built_pre_invariants g :
  built_pre g →
  (∀ k v, vertices g !! k = Some v → item_at (objs g) v = Some k)
  ∧ (∀ A B, A ∈ nbrs (objs g) B ↔ B ∈ nbrs (objs g) A)
  ∧ (∀ A, A ∉ nbrs (objs g) A).
Proof.
  intros Hb. split_and!.
  - apply (built_wf g), built_fresh_built, built_pre_fresh, Hb.
  - destruct (built_fresh_inv g (built_pre_fresh g Hb)) as [_ Hy].
    intros A B. split; apply Hy.
  - apply (built_pre_loop_free g Hb).
Qed.

(** *** Path enumeration *)

Lemma count_matching_from (p l : list Item) (n : nat) :
  foldl (λ count i, if decide (l !! i = p !! i) then S count else count)
        n (seq 0 (length p `min` length l))
  = (n + matching p l)%nat.
Proof.
  revert l n. induction p as [|y p IH]; intros [|x l] n;
    cbn [length Nat.min seq foldl]; unfold matching; cbn [zip zip_with];
    try (rewrite filter_nil; cbn; lia).
  rewrite <- fmap_S_seq, foldl_fmap. cbn [lookup list_lookup].
  rewrite (IH l). rewrite filter_cons. cbn [fst snd].
  unfold matching.
  destruct (decide (Some x = Some y)) as [[= ->]|Hne].
  - rewrite decide_True by done. cbn. lia.
  - rewrite decide_False by congruence. lia.
Qed.

(** The counting loop of lines 64-69 computes [matching]. *)
Lemma count_matching_eq (p l : list Item) : count_matching p l = matching p l.
Proof. unfold count_matching. by rewrite count_matching_from. Qed.

(** The rule of lines 62-73 on its own, as [visit_target] has it: when the
    item is the target and the candidate [path] is not yet in [final_path],
    the candidate is appended if [final_path] is empty; otherwise, with
    [last] the most recently recorded path, it is appended iff
    [matching < len(path) - len(path) // 3], and [final_path] is left as it
    is when it is not appended. *)
Theorem acceptance_rule it target_item (path : list Item) final_path :
  it = target_item → path ∉ final_path →
  (final_path = [] →
     visit_target it target_item path final_path = final_path ++ [path])
  ∧ (∀ last_path, last final_path = Some last_path →
       (visit_target it target_item path final_path = final_path ++ [path] ↔
          (matching path last_path < length path - length path / 3)%nat)
       ∧ ((¬ (matching path last_path < length path - length path / 3)%nat) →
          visit_target it target_item path final_path = final_path)).
Proof.
  intros Hit Hnew. unfold visit_target.
  rewrite decide_True by done. unfold record_path. split.
  - intros ->. done.
  - intros last_path Hlast.
    assert (length final_path ≠ 0)%nat as Hlen.
    { destruct final_path; [done|]. cbn. lia. }
    rewrite decide_True by done.
    rewrite last_lookup in Hlast.
    replace (length final_path - 1)%nat with (pred (length final_path)) by lia.
    rewrite Hlast. cbn [default]. rewrite count_matching_eq.
    case_decide as Hd.
    + split; [tauto|]. tauto.
    + split; [|done]. split; [|tauto].
      intros Heq. apply (f_equal length) in Heq.
      rewrite length_app in Heq. cbn in Heq. lia.
Qed.

Lemma visit_target_cases it target_item (p : list Item) fp :
  visit_target it target_item p fp = fp
  ∨ (visit_target it target_item p fp = fp ++ [p]
     ∧ it = target_item ∧ p ∉ fp).
Proof.
  unfold visit_target, record_path.
  repeat case_decide; naive_solver.
Qed.

Lemma path_step_refl target_item pre st : path_step target_item pre st st.
Proof. unfold path_step. naive_solver. Qed.

Lemma path_step_trans target_item pre pre' st1 st2 st3 :
  pre `prefix_of` pre' →
  path_step target_item pre st1 st2 → path_step target_item pre' st2 st3 →
  path_step target_item pre st1 st3.
Proof.
  intros Hpre (Hv1 & Hp1 & Hn1 & Hf1) (Hv2 & Hp2 & Hn2 & Hf2).
  split_and!; [congruence|congruence|tauto|].
  intros p Hp. destruct (Hf2 p Hp) as [Hp'|[Hl Hq]].
  - by apply Hf1.
  - right. split; [done|]. by etrans.
Qed.

Lemma path_loop_step target_item h rec us st st' :
  (∀ i s s', rec i s = Some s' →
     ∃ x, path_step target_item (path s ++ [x]) s s') →
  path_loop h rec us st = Some st' →
  path_step target_item (path st) st st'.
Proof.
  intros Hrec. revert st. induction us as [|i us IH]; intros st; cbn.
  - intros [= <-]. apply path_step_refl.
  - destruct (h !! i) as [vi|]; [cbn|done].
    case_decide; [|by apply IH].
    destruct (rec i st) as [s1|] eqn:E; [cbn|done]. intros Hl.
    destruct (Hrec _ _ _ E) as [x Hs]. apply IH in Hl.
    assert (path s1 = path st) as Hp by apply Hs.
    rewrite Hp in Hl.
    eapply (path_step_trans _ (path st) (path st)); [done| |done].
    destruct Hs as (?&?&?&Hf). split_and!; try done.
    intros p Hin. destruct (Hf p Hin) as [?|[? ?]]; [by left|right].
    split; [done|]. etrans; [|done]. by apply prefix_app_r.
Qed.

Lemma check_connected_path_step fuel h self target_item st depth max_depth st' :
  check_connected_path fuel h self target_item st depth max_depth = Some st' →
  ∃ vx, h !! self = Some vx
        ∧ path_step target_item (path st ++ [item vx]) st st'.
Proof.
  revert self st depth max_depth st'.
  induction fuel as [|fuel IH]; intros self st depth max_depth st'; [done|].
  cbn [check_connected_path].
  destruct (h !! self) as [v|]; [cbn [mbind option_bind]|done].
  intros Hc. exists v. split; [done|].
  case_decide as Hd; cbn [visited path final_path] in Hc.
  - match type of Hc with
    | context [path_loop ?hh ?rec ?us ?s] =>
        destruct (path_loop hh rec us s) as [s2|] eqn:El
    end; [|done].
    cbn in Hc. injection Hc as <-.
    apply (path_loop_step target_item) in El.
    2:{ intros i s s' Hr. apply IH in Hr as (vi & _ & Hs). eauto. }
    destruct El as (Ev & Ep & En & Ef). cbn in Ev, Ep, En, Ef.
    split_and!; cbn.
    + by rewrite Ev, removelast_last.
    + by rewrite Ep, removelast_last.
    + intros Hnd. apply En.
      destruct (visit_target_cases (item v) target_item
                  (path st ++ [item v]) (final_path st)) as [->|(-> & _ & Hn)];
        [done|].
      apply NoDup_app. split_and!; [done| |apply NoDup_singleton].
      intros x Hx ->%list_elem_of_singleton. done.
    + intros p Hp. destruct (Ef p Hp) as [Hp'|?]; [|by right].
      destruct (visit_target_cases (item v) target_item
                  (path st ++ [item v]) (final_path st))
        as [Hvt|(Hvt & Hit & Hn)]; rewrite Hvt in Hp'; [by left|].
      apply elem_of_app in Hp' as [?| ->%list_elem_of_singleton]; [by left|].
      right. split; [|done]. by rewrite last_snoc, Hit.
  - cbn in Hc. injection Hc as <-. cbn. rewrite !removelast_last.
    unfold path_step. cbn. naive_solver.
Qed.

Lemma path_loop_prefix h rec us st st' :
  (∀ i s s', rec i s = Some s' → final_path s `prefix_of` final_path s') →
  path_loop h rec us st = Some st' →
  final_path st `prefix_of` final_path st'.
Proof.
  intros Hrec. revert st. induction us as [|i us IH]; intros st; cbn.
  - by intros [= <-].
  - destruct (h !! i) as [vi|]; [cbn|done].
    case_decide; [|by apply IH].
    destruct (rec i st) as [s1|] eqn:E; [cbn|done]. intros Hl.
    etrans; [by eapply Hrec|by apply IH].
Qed.

Lemma visit_target_prefix it target_item (p : list Item) fp :
  fp `prefix_of` visit_target it target_item p fp.
Proof.
  destruct (visit_target_cases it target_item p fp) as [->|[-> _]];
    [done|by apply prefix_app_r].
Qed.

(** Recorded paths are never removed nor reordered. *)
Lemma check_connected_path_prefix fuel h self target_item st depth max_depth st' :
  check_connected_path fuel h self target_item st depth max_depth = Some st' →
  final_path st `prefix_of` final_path st'.
Proof.
  revert self st depth max_depth st'.
  induction fuel as [|fuel IH]; intros self st depth max_depth st'; [done|].
  cbn [check_connected_path].
  destruct (h !! self) as [vx|]; [cbn [mbind option_bind]|done].
  case_decide as Hd; cbn [visited path final_path].
  - match goal with
    | |- context [path_loop ?hh ?rec ?us ?s] =>
        destruct (path_loop hh rec us s) as [s2|] eqn:El
    end; [|done].
    cbn. intros [= <-]. cbn.
    apply path_loop_prefix in El; [|intros i s s'; apply IH].
    cbn in El. etrans; [apply visit_target_prefix|done].
  - cbn. by intros [= <-].
Qed.

(** Where lines 62-73 sit in a call: under the guard [depth <= max_depth]
    the list [final_path] that the call leaves starts with what
    [visit_target] made of it for the current vertex. *)
Lemma check_connected_path_records fuel h self vx target_item st depth
    max_depth st' :
  h !! self = Some vx → (depth ≤ max_depth)%Z →
  check_connected_path fuel h self target_item st depth max_depth = Some st' →
  visit_target (item vx) target_item (path st ++ [item vx]) (final_path st)
    `prefix_of` final_path st'.
Proof.
  intros Hv Hd. destruct fuel as [|fuel]; [done|].
  cbn [check_connected_path]. rewrite Hv. cbn [mbind option_bind].
  rewrite decide_True by done. cbn [visited path final_path].
  match goal with
  | |- context [path_loop ?hh ?rec ?us ?s] =>
      destruct (path_loop hh rec us s) as [s2|] eqn:El
  end; [|done].
  cbn. intros [= <-]. cbn.
  apply path_loop_prefix in El; [done|].
  intros i s s'. apply check_connected_path_prefix.
Qed.



Lemma path_loop_total h rec us st :
  (∀ i, i ∈ us → (i < length h)%nat) →
  (∀ i s, (i < length h)%nat → is_Some (rec i s)) →
  is_Some (path_loop h rec us st).
Proof.
  intros Hus Hrec. revert st. induction us as [|i us IH]; intros st; cbn.
  - done.
  - assert (i < length h)%nat as Hi by (apply Hus; left).
    destruct (lookup_lt_is_Some_2 h i Hi) as [vi ->]. cbn.
    assert (∀ s, is_Some (path_loop h rec us s)) as IH'.
    { intros s. apply IH. intros j Hj. apply Hus. by right. }
    case_decide; [|done].
    destruct (Hrec i st Hi) as [s1 ->]. cbn. done.
Qed.

(** On a well-formed arena the enumeration returns: no call is nested
    deeper than 21 below the root. *)
Lemma check_connected_path_total fuel h self target_item st depth max_depth :
  wf_arena h → (self < length h)%nat → (max_depth ≤ 20)%Z →
  (0 < fuel)%nat → (21 - depth < Z.of_nat fuel)%Z →
  is_Some (check_connected_path fuel h self target_item st depth max_depth).
Proof.
  intros Hwf. revert self st depth max_depth.
  induction fuel as [|fuel IH]; intros self st depth max_depth Hs Hm Hf Hd;
    [lia|].
  cbn [check_connected_path].
  destruct (lookup_lt_is_Some_2 h self Hs) as [v Hv]. rewrite Hv.
  cbn [mbind option_bind]. case_decide as Hle; [|done].
  match goal with
  | |- context [path_loop ?hh ?rec ?us ?s] =>
      destruct (path_loop_total hh rec us s) as [s2 ->]
  end; [| |done].
  - intros i Hi. apply (Hwf self). unfold nbrs. by rewrite Hv.
  - intros i s Hi. apply IH; [done|lia|lia|lia].
Qed.

Lemma fuel0_enough : (0 < fuel0)%nat ∧ (21 < Z.of_nat fuel0)%Z.
Proof. unfold fuel0. lia. Qed.

(** The cap given to the root call is only compared with depth 0. *)
Lemma check_connected_path_root_cap fuel h self target_item st max_depth :
  (20 < max_depth)%Z →
  check_connected_path fuel h self target_item st 0 max_depth =
  check_connected_path fuel h self target_item st 0 20.
Proof.
  intros Hm. destruct fuel as [|fuel]; [done|].
  cbn [check_connected_path]. destruct (h !! self) as [vx|]; [cbn|done].
  by rewrite !decide_True by lia.
Qed.

(** What [connected_path] returns for two vertices of a built graph. *)
Lemma connected_path_present g item1 item2 max_depth v1 v2 :
  built g → vertices g !! item1 = Some v1 → vertices g !! item2 = Some v2 →
  ∃ paths, connected_path g item1 item2 max_depth = Some (Some paths)
           ∧ NoDup paths
           ∧ ∀ p, p ∈ paths → head p = Some item1 ∧ last p = Some item2.
Proof.
  intros Hb E1 E2. pose proof (built_vertex_lt _ _ _ Hb E1) as Hv1.
  destruct (built_wf g Hb) as [Hwf Hkeys].
  destruct fuel0_enough as [Hf0 Hf1].
  assert (∀ md, (md ≤ 20)%Z → ∃ paths,
    returned <$> check_connected_path fuel0 (objs g) v1 item2
                   (mkPstate [] [] []) 0 md = Some (Some paths)
    ∧ NoDup paths
    ∧ ∀ p, p ∈ paths → head p = Some item1 ∧ last p = Some item2) as Hmain.
  { intros md Hmd.
    destruct (check_connected_path_total fuel0 (objs g) v1 item2
                (mkPstate [] [] []) 0 md) as [st' Est]; [done..|lia|].
    rewrite Est. cbn [fmap option_fmap option_map].
    apply check_connected_path_step in Est as (vx & Hvx & Hv & Hp & Hn & Hfp).
    cbn in Hv, Hp, Hn, Hfp. unfold returned. rewrite Hp.
    exists (final_path st'). split_and!; [done|apply Hn, NoDup_nil_2|].
    intros p Hin. destruct (Hfp p Hin) as [Hnil|[Hl [q ->]]].
    - by apply elem_of_nil in Hnil.
    - split; [|done]. cbn. f_equal.
      apply Hkeys in E1. unfold item_at in E1. rewrite Hvx in E1.
      by injection E1. }
  unfold connected_path. rewrite E1, E2. case_decide; apply Hmain; lia.
Qed.

Lemma connected_path_absent g item1 item2 max_depth :
  vertices g !! item1 = None ∨ vertices g !! item2 = None →
  connected_path g item1 item2 max_depth = Some None.
Proof.
  intros Hn. unfold connected_path.
  destruct (vertices g !! item1), (vertices g !! item2); naive_solver.
Qed.

Lemma connected_path_total g item1 item2 max_depth :
  built g → is_Some (connected_path g item1 item2 max_depth).
Proof.
  intros Hb.
  destruct (vertices g !! item1) as [v1|] eqn:E1;
    [destruct (vertices g !! item2) as [v2|] eqn:E2|].
  - destruct (connected_path_present g item1 item2 max_depth v1 v2)
      as (paths & -> & _); done.
  - rewrite connected_path_absent by (by right). done.
  - rewrite connected_path_absent by (by left). done.
Qed.

Lemma shortest_path_total g item1 item2 :
  built g → is_Some (shortest_path g item1 item2).
Proof.
  intros Hb. unfold shortest_path.
  destruct (connected_path_total g item1 item2 20 Hb)
    as [[[|p ps]|] ->]; done.
Qed.

(** C8. For all items and every depth cap, [connected_path] returns, and the
    list it returns never holds the same sequence of items twice. *)
Theorem connected_path_no_duplicates g item1 item2 max_depth :
  built g →
  ∃ r, connected_path g item1 item2 max_depth = Some r
       ∧ ∀ paths, r = Some paths → NoDup paths.
Proof.
  intros Hb.
  destruct (vertices g !! item1) as [v1|] eqn:E1;
    [destruct (vertices g !! item2) as [v2|] eqn:E2|].
  - destruct (connected_path_present g item1 item2 max_depth v1 v2)
      as (paths & -> & Hn & _); [done..|].
    exists (Some paths). split; [done|]. by intros ? [= <-].
  - exists None. split; [|done]. apply connected_path_absent. by right.
  - exists None. split; [|done]. apply connected_path_absent. by left.
Qed.

(** C9. [connected_path(item1, item2, max_depth)] returns None if one of the
    two items is unknown; otherwise it returns what the root call of
    [check_connected_path] returns on empty [visited], [path] and
    [final_path] lists, at depth 0 and with the cap [max_depth]. *)
Theorem connected_path_delegates g item1 item2 max_depth :
  connected_path g item1 item2 max_depth =
  match vertices g !! item1, vertices g !! item2 with
  | Some v1, Some _ =>
      returned <$> check_connected_path fuel0 (objs g) v1 item2
                     (mkPstate [] [] []) 0 max_depth
  | _, _ => Some None
  end.
Proof.
  unfold connected_path.
  destruct (vertices g !! item1) as [v1|]; [|done].
  destruct (vertices g !! item2) as [v2|]; [|done].
  case_decide; [done|]. by rewrite (check_connected_path_root_cap _ _ _ _ _ max_depth) by lia.
Qed.

Lemma min_path_from (paths : list (list Item)) (m : list Item) :
  let r := foldl (λ min_path p, if decide (length p < length min_path)%nat
                                then p else min_path) m paths in
  (r = m ∨ r ∈ paths) ∧ (length r ≤ length m)%nat
  ∧ ∀ q, q ∈ paths → (length r ≤ length q)%nat.
Proof.
  revert m. induction paths as [|p paths IH]; intros m; cbn.
  - split_and!; [by left|done|]. intros q Hq. by apply elem_of_nil in Hq.
  - case_decide as Hd.
    + destruct (IH p) as ([->|Hin] & Hle & Hall); cbn in *.
      * split_and!; [right; left|lia|].
        intros q [->|Hq]%elem_of_cons; [done|by apply Hall].
      * split_and!; [right; by right|lia|].
        intros q [->|Hq]%elem_of_cons; [done|by apply Hall].
    + destruct (IH m) as ([->|Hin] & Hle & Hall); cbn in *.
      * split_and!; [by left|done|].
        intros q [->|Hq]%elem_of_cons; [lia|by apply Hall].
      * split_and!; [right; by right|done|].
        intros q [->|Hq]%elem_of_cons; [lia|by apply Hall].
Qed.

Lemma min_path_spec (p : list Item) (paths : list (list Item)) :
  min_path (p :: paths) ∈ p :: paths
  ∧ ∀ q, q ∈ p :: paths → (length (min_path (p :: paths)) ≤ length q)%nat.
Proof.
  unfold min_path. cbn [head default from_option]. unfold id.
  destruct (min_path_from (p :: paths) p) as ([Hr|Hr] & _ & Hall).
  - split; [|done]. rewrite Hr. by left.
  - done.
Qed.

(** C7. [shortest_path(a, b)] returns None when [connected_path] yields no
    paths (None or the empty list); otherwise it returns one of the paths of
    that list, whose first element is a, whose last element is b, and which
    is no longer than any path of the list. *)
Theorem shortest_path_spec g a b :
  built g →
  ∃ r, connected_path g a b 20 = Some r ∧
    match r with
    | None | Some [] => shortest_path g a b = Some None
    | Some paths =>
        ∃ p, shortest_path g a b = Some (Some p)
             ∧ p ∈ paths ∧ head p = Some a ∧ last p = Some b
             ∧ ∀ q, q ∈ paths → (length p ≤ length q)%nat
    end.
Proof.
  intros Hb. unfold shortest_path.
  destruct (vertices g !! a) as [v1|] eqn:E1;
    [destruct (vertices g !! b) as [v2|] eqn:E2|].
  - destruct (connected_path_present g a b 20 v1 v2)
      as (paths & -> & Hn & Hends); [done..|].
    exists (Some paths). split; [done|]. cbn.
    destruct paths as [|p paths]; [done|].
    destruct (min_path_spec p paths) as [Hin Hmin].
    exists (min_path (p :: paths)). split_and!; try done; by apply Hends.
  - rewrite connected_path_absent by (by right). by exists None.
  - rewrite connected_path_absent by (by left). by exists None.
Qed.

(** *** Bounded-distance search *)

Lemma distance_any_total rec (nv : gset nat) (us : list nat) :
  (∀ u, u ∈ us → is_Some (rec u)) → is_Some (distance_any rec nv us).
Proof.
  induction us as [|u us IH]; intros Hrec; cbn; [done|].
  assert (is_Some (distance_any rec nv us)) as IH'.
  { apply IH. intros x Hx. apply Hrec. by right. }
  case_decide; [|done].
  destruct (Hrec u) as [[|] ->]; [by left|done..].
Qed.

Lemma distance_any_false rec (nv : gset nat) (us : list nat) :
  (∀ u, u ∈ us → rec u = Some false) → distance_any rec nv us = Some false.
Proof.
  induction us as [|u us IH]; intros Hrec; cbn; [done|].
  assert (distance_any rec nv us = Some false) as IH'.
  { apply IH. intros x Hx. apply Hrec. by right. }
  case_decide; [|done]. rewrite (Hrec u) by (by left). done.
Qed.

Lemma check_connected_distance_total fuel h self target_item
    (vis : gset nat) (d : Z) :
  wf_arena h → (self < length h)%nat →
  (0 < fuel)%nat → (d + 1 < Z.of_nat fuel)%Z →
  is_Some (check_connected_distance fuel h self target_item vis d).
Proof.
  intros Hwf. revert self vis d.
  induction fuel as [|fuel IH]; intros self vis d Hs Hf Hd; [lia|].
  cbn [check_connected_distance].
  destruct (lookup_lt_is_Some_2 h self Hs) as [vx Hv]. rewrite Hv.
  cbn [mbind option_bind]. case_decide; [done|]. case_decide; [done|].
  apply distance_any_total. intros u Hu. apply IH; [|lia..].
  apply (Hwf self). unfold nbrs. by rewrite Hv.
Qed.

(** With budget 0 the search only looks at the vertex it starts from. *)
Lemma distance_budget_zero fuel h self target_item (vis : gset nat) :
  wf_arena h → (self < length h)%nat → (1 < fuel)%nat →
  check_connected_distance fuel h self target_item vis 0 =
  Some (bool_decide (item_at h self = Some target_item)).
Proof.
  intros Hwf Hs Hf. destruct fuel as [|[|fuel]]; [lia..|].
  remember (S fuel) as f eqn:Ef. cbn [check_connected_distance].
  destruct (lookup_lt_is_Some_2 h self Hs) as [vx Hv].
  unfold item_at. rewrite Hv. cbn [mbind option_bind fmap option_fmap option_map].
  case_decide as Hd.
  - destruct Hd as [-> _]. by rewrite bool_decide_eq_true_2.
  - rewrite decide_False by lia.
    rewrite bool_decide_eq_false_2 by (intros [= ?]; apply Hd; split; [done|lia]).
    apply distance_any_false. intros u Hu. subst f.
    cbn [check_connected_distance].
    assert (u < length h)%nat as Hul.
    { apply (Hwf self). unfold nbrs. by rewrite Hv. }
    destruct (lookup_lt_is_Some_2 h u Hul) as [vu ->].
    cbn [mbind option_bind]. rewrite decide_False by lia.
    by rewrite decide_True by lia.
Qed.

(** C2, amended. On every built graph and for all items a and b,
    [connected_distance(a, b, 0)] returns, and it returns true iff [a == b]
    and a is a vertex of the graph. *)
Theorem connected_distance_zero g a b :
  built g →
  ∃ r, connected_distance g a b 0 = Some r
       ∧ (r = true ↔ a = b ∧ is_Some (vertices g !! a)).
Proof.
  intros Hb. destruct (built_wf g Hb) as [Hwf Hkeys].
  unfold connected_distance. rewrite decide_False by lia.
  destruct (vertices g !! a) as [v1|] eqn:E1.
  2:{ exists false. split; [done|]. split; [done|]. intros [_ [? ?]]. done. }
  destruct (vertices g !! b) as [v2|] eqn:E2.
  2:{ exists false. split; [done|]. split; [done|].
      intros [-> _]. congruence. }
  pose proof (built_vertex_lt _ _ _ Hb E1) as Hv1.
  rewrite distance_budget_zero by (done || unfold fuel0; lia).
  eexists. split; [done|]. rewrite bool_decide_eq_true.
  rewrite (Hkeys _ _ E1). split.
  - intros [= ->]. done.
  - intros [-> _]. done.
Qed.

(** *** Depth-first search with a shared visited set *)

Lemma connected_loop_total rec (us : list nat) (vis : gset nat) :
  (∀ u V, u ∈ us → is_Some (rec u V)) → is_Some (connected_loop rec us vis).
Proof.
  revert vis. induction us as [|u us IH]; intros vis Hrec; cbn; [done|].
  assert (∀ V, is_Some (connected_loop rec us V)) as IH'.
  { intros V. apply IH. intros x V' Hx. apply Hrec. by right. }
  case_decide; [|done].
  destruct (Hrec u vis) as [[[|] V'] ->]; [by left|cbn; done..].
Qed.

Lemma check_connected_total fuel h self target_item (vis : gset nat) depth :
  wf_arena h → (self < length h)%nat →
  (0 < fuel)%nat → (21 - depth < Z.of_nat fuel)%Z →
  is_Some (check_connected fuel h self target_item vis depth).
Proof.
  intros Hwf. revert self vis depth.
  induction fuel as [|fuel IH]; intros self vis depth Hs Hf Hd; [lia|].
  cbn [check_connected]. case_decide; [done|].
  destruct (lookup_lt_is_Some_2 h self Hs) as [vx Hv]. rewrite Hv.
  cbn [mbind option_bind]. case_decide; [done|].
  apply connected_loop_total. intros u V Hu. apply IH; [|lia..].
  apply (Hwf self). unfold nbrs. by rewrite Hv.
Qed.

Lemma connected_total g a b : built g → is_Some (connected g a b).
Proof.
  intros Hb. unfold connected.
  destruct (vertices g !! a) as [v1|] eqn:E1; [|done].
  destruct (vertices g !! b) as [v2|] eqn:E2; [|done].
  destruct (check_connected_total fuel0 (objs g) v1 b ∅ 0) as [r ->];
    [by apply built_wf|by eapply built_vertex_lt|unfold fuel0; lia..|].
  done.
Qed.

Lemma connected_distance_total g a b d :
  built g → is_Some (connected_distance g a b d).
Proof.
  intros Hb. unfold connected_distance. case_decide; [done|].
  destruct (vertices g !! a) as [v1|] eqn:E1; [|done].
  destruct (vertices g !! b) as [v2|] eqn:E2; [|done].
  apply check_connected_distance_total;
    [by apply built_wf|by eapply built_vertex_lt|unfold fuel0; lia..].
Qed.

(** On a built graph every query of the summary [step] ends, with a value
    or an exception. *)
Theorem query_leaves_graph g c :
  built g → is_query c = true → ∃ r, step g c = Some (r, g).
Proof.
  intros Hb Hq. destruct c; try done; cbn [step]; try by eexists.
  - destruct (connected_total g item1 item2 Hb) as [r ->]. by eexists.
  - destruct (connected_path_total g item1 item2 max_depth Hb)
      as [r ->]. by eexists.
  - destruct (shortest_path_total g item1 item2 Hb) as [r ->]. by eexists.
  - destruct (connected_distance_total g item1 item2 d Hb) as [r ->].
    by eexists.
Qed.

Lemma connected_loop_mono rec (us : list nat) (V V' : gset nat) (r : bool) :
  (∀ u V1 (r1 : bool) V2, rec u V1 = Some (r1, V2) → V1 ⊆ V2) →
  connected_loop rec us V = Some (r, V') → V ⊆ V'.
Proof.
  intros Hrec. revert V. induction us as [|u us IH]; intros V; cbn.
  - by intros [= _ <-].
  - case_decide; [|apply IH].
    destruct (rec u V) as [[b1 V1]|] eqn:E; [cbn|done].
    apply Hrec in E. destruct b1.
    + intros [= _ <-]. done.
    + intros Hl%IH. set_solver.
Qed.

(** The set [visited] only grows. *)
Lemma check_connected_mono fuel h self target_item (V V' : gset nat) depth
    (r : bool) :
  check_connected fuel h self target_item V depth = Some (r, V') → V ⊆ V'.
Proof.
  revert self V V' depth r.
  induction fuel as [|fuel IH]; intros self V V' depth r; [done|].
  cbn [check_connected]. case_decide; [by intros [= _ <-]|].
  destruct (h !! self) as [vx|]; [cbn [mbind option_bind]|done].
  case_decide; [by intros [= _ <-]|].
  intros Hl%connected_loop_mono; [set_solver|].
  intros u V1 b1 V2. apply IH.
Qed.

Lemma found_path_anti h target_item n (V1 V2 : gset nat) u :
  V1 ⊆ V2 → found_path h target_item n V2 u → found_path h target_item n V1 u.
Proof.
  intros Hsub (w & p & Hp & Hw & Hav & Hlen).
  exists w, p. split_and!; try done. set_solver.
Qed.

Lemma connected_loop_true rec (us : list nat) (V V' : gset nat)
    (P : gset nat → nat → Prop) :
  (∀ u V1 V2, V1 ⊆ V2 → P V2 u → P V1 u) →
  (∀ u V1 (r : bool) V2, rec u V1 = Some (r, V2) → V1 ⊆ V2) →
  (∀ u V1 V2, u ∉ V1 → rec u V1 = Some (true, V2) → P V1 u) →
  connected_loop rec us V = Some (true, V') → ∃ u, u ∈ us ∧ P V u.
Proof.
  intros Hanti Hmono Hrec. revert V.
  induction us as [|u us IH]; intros V; cbn; [done|].
  case_decide as Hu.
  - destruct (rec u V) as [[b1 V1]|] eqn:E; [cbn|done]. destruct b1.
    + intros _. exists u. split; [by left|]. by eapply Hrec.
    + intros (x & Hx & HP)%IH. exists x. split; [by right|].
      eapply Hanti; [|done]. by eapply Hmono.
  - intros (x & Hx & HP)%IH. exists x. split; [by right|done].
Qed.

(** Soundness: a search that answers true has followed a simple path to a
    vertex holding the target, and the depth guard bounds its length. *)
Lemma check_connected_true fuel h self target_item (V V' : gset nat) depth :
  self ∉ V →
  check_connected fuel h self target_item V depth = Some (true, V') →
  found_path h target_item (21 - depth) V self.
Proof.
  revert self V V' depth.
  induction fuel as [|fuel IH]; intros self V V' depth Hs; [done|].
  cbn [check_connected]. case_decide as Hd; [done|].
  destruct (h !! self) as [vx|] eqn:Hv; [cbn [mbind option_bind]|done].
  case_decide as Hit.
  - intros _. exists self, [self]. split_and!.
    + repeat split; try done. apply NoDup_singleton.
    + unfold item_at. by rewrite Hv, <- Hit.
    + by intros x ->%list_elem_of_singleton.
    + cbn. lia.
  - intros Hl.
    apply (connected_loop_true _ _ _ _
             (found_path h target_item (21 - (depth + 1)))) in Hl.
    + destruct Hl as (u & Hu & w & p & (Hhd & Hla & Hwalk & Hnd) & Hw & Hav & Hlen).
      destruct p as [|u' p]; [done|]. injection Hhd as ->.
      exists w, (self :: u :: p). split_and!.
      * repeat split; try done.
        -- unfold edge, nbrs. by rewrite Hv.
        -- apply NoDup_cons. split; [|done].
           intros Hin. apply Hav in Hin. set_solver.
      * done.
      * intros x [->|Hx]%elem_of_cons; [done|].
        apply Hav in Hx. set_solver.
      * cbn [length] in *. lia.
    + intros u V1 V2. apply found_path_anti.
    + intros u V1 b V2. apply check_connected_mono.
    + intros u V1 V2 Hu1 Hr. by eapply IH.
Qed.

Lemma size_below (V : gset nat) (n x : nat) :
  (∀ y, y ∈ V → (y < n)%nat) → (x < n)%nat → x ∉ V → (size V < n)%nat.
Proof.
  intros HV Hx Hnot.
  assert ({[x]} ∪ V ⊆ set_seq (C:=gset nat) 0 n) as Hsub.
  { intros y. rewrite elem_of_set_seq, elem_of_union, elem_of_singleton.
    intros [->|Hy]; [lia|]. apply HV in Hy. lia. }
  apply subseteq_size in Hsub.
  rewrite size_union, size_singleton, size_set_seq in Hsub by set_solver.
  lia.
Qed.

Lemma explored_trans h target_item (V1 V2 V3 : gset nat) :
  explored h target_item V1 V2 → explored h target_item V2 V3 →
  explored h target_item V1 V3.
Proof.
  intros (Hs1 & Hb1 & Hc1) (Hs2 & Hb2 & Hc2). split_and!.
  - set_solver.
  - done.
  - intros x Hx3 Hx1. destruct (decide (x ∈ V2)) as [Hx2|Hx2].
    + destruct (Hc1 x Hx2 Hx1) as [Hi Hn]. split; [done|].
      intros y Hy. apply Hs2. by apply Hn.
    + by apply Hc2.
Qed.

Lemma connected_loop_false h target_item rec (us : list nat)
    (V V' : gset nat) (k : nat) :
  (∀ u V1 V2, (u < length h)%nat → u ∉ V1 →
     (∀ x, x ∈ V1 → (x < length h)%nat) → (k ≤ size V1)%nat →
     rec u V1 = Some (false, V2) → u ∈ V2 ∧ explored h target_item V1 V2) →
  (∀ u, u ∈ us → (u < length h)%nat) →
  (∀ x, x ∈ V → (x < length h)%nat) → (k ≤ size V)%nat →
  connected_loop rec us V = Some (false, V') →
  explored h target_item V V' ∧ ∀ u, u ∈ us → u ∈ V'.
Proof.
  intros Hrec. revert V.
  induction us as [|u us IH]; intros V Hus HV Hk; cbn.
  - intros [= <-]. split; [|by intros u Hu%elem_of_nil].
    split_and!; [done|done|]. intros x ? ?. done.
  - assert (∀ x, x ∈ us → (x < length h)%nat) as Hus'.
    { intros x Hx. apply Hus. by right. }
    case_decide as Hu.
    + destruct (rec u V) as [[b1 V1]|] eqn:E; [cbn|done].
      destruct b1; [done|]. intros Hl.
      apply Hrec in E as [Hu1 Hex]; [|apply Hus; by left|done..].
      apply IH in Hl as [Hex' Hall]; [|done|apply Hex|].
      2:{ destruct Hex as [Hsub _]. apply subseteq_size in Hsub. lia. }
      split; [by eapply explored_trans|].
      intros x [->|Hx]%elem_of_cons; [|by apply Hall].
      destruct Hex' as [Hsub _]. by apply Hsub.
    + intros Hl. apply IH in Hl as [Hex Hall]; [|done..].
      split; [done|].
      intros x [->|Hx]%elem_of_cons; [|by apply Hall].
      destruct Hex as [Hsub _]. apply Hsub. set_solver.
Qed.

(** Completeness on a small arena: with at most 21 vertex objects the depth
    guard never fires, and a search that answers false has closed the set
    [visited] under the neighbour relation without meeting the target. *)
Lemma check_connected_false fuel h self target_item (V V' : gset nat) (k : nat) :
  wf_arena h → (length h ≤ 21)%nat →
  (self < length h)%nat → self ∉ V →
  (∀ x, x ∈ V → (x < length h)%nat) → (k ≤ size V)%nat →
  check_connected fuel h self target_item V (Z.of_nat k) = Some (false, V') →
  self ∈ V' ∧ explored h target_item V V'.
Proof.
  intros Hwf Hsmall. revert self V V' k.
  induction fuel as [|fuel IH]; intros self V V' k Hs Hnot HV Hk; [done|].
  cbn [check_connected].
  pose proof (size_below V (length h) self HV Hs Hnot) as Hsize.
  rewrite decide_False by lia.
  destruct (h !! self) as [vx|] eqn:Hv; [cbn [mbind option_bind]|done].
  case_decide as Hit; [done|]. intros Hl.
  apply (connected_loop_false h target_item _ _ _ _ (S k)) in Hl
    as [(Hsub & Hbnd & Hcl) Hall].
  - split; [set_solver|]. split_and!; [set_solver|done|].
    intros x Hx Hx0. destruct (decide (x = self)) as [->|Hne].
    + split.
      * unfold item_at. rewrite Hv. cbn. congruence.
      * intros y Hy. apply Hall. unfold edge, nbrs in Hy. by rewrite Hv in Hy.
    + apply Hcl; [done|]. set_solver.
  - intros u V1 V2 Hu Hu1 HV1 Hk1 Hr.
    replace (Z.of_nat k + 1)%Z with (Z.of_nat (S k)) in Hr by lia.
    by eapply IH.
  - intros u Hu. apply (Hwf self). unfold nbrs. by rewrite Hv.
  - intros x [->%elem_of_singleton|Hx]%elem_of_union; [done|by apply HV].
  - rewrite size_union, size_singleton by set_solver. lia.
Qed.

Lemma walk_rtc h (p : list nat) u w :
  head p = Some u → last p = Some w → walk h p → rtc (edge h) u w.
Proof.
  revert u. induction p as [|x p IH]; intros u; [done|].
  intros [= ->]. destruct p as [|y p].
  - intros [= ->] _. done.
  - rewrite last_cons_cons. intros Hl [He Hw].
    eapply rtc_l; [done|]. by apply IH.
Qed.

Lemma explored_closed h target_item (V : gset nat) u w :
  explored h target_item ∅ V → u ∈ V → rtc (edge h) u w →
  w ∈ V ∧ item_at h w ≠ Some target_item.
Proof.
  intros (_ & _ & Hcl) Hu Hrtc. induction Hrtc as [x|x y z Hxy _ IH].
  - split; [done|]. by apply Hcl.
  - apply IH. by apply (Hcl x).
Qed.

(** C1, amended. For every built graph and all items a and b that are
    present, [connected(a, b)] returns; if it returns true, a simple path of
    at most 20 edges leads from the vertex of a to a vertex holding b; and
    when the graph has at most 21 vertex objects, it returns true iff a
    vertex holding b can be reached from the vertex of a. *)
Theorem connected_spec g a b va vb :
  built g → vertices g !! a = Some va → vertices g !! b = Some vb →
  ∃ r, connected g a b = Some r
    ∧ (r = true →
       ∃ w p, simple_path (objs g) va w p ∧ item_at (objs g) w = Some b
              ∧ (length p ≤ 21)%nat)
    ∧ ((length (objs g) ≤ 21)%nat →
       (r = true ↔
        ∃ w, rtc (edge (objs g)) va w ∧ item_at (objs g) w = Some b)).
Proof.
  intros Hb Ea Eb. destruct (built_wf g Hb) as [Hwf Hkeys].
  pose proof (built_vertex_lt _ _ _ Hb Ea) as Hva.
  unfold connected. rewrite Ea, Eb.
  destruct (check_connected_total fuel0 (objs g) va b ∅ 0) as [[r V'] Hr];
    [done|done|unfold fuel0; lia..|].
  rewrite Hr. exists r. split; [done|].
  assert (r = true →
          ∃ w p, simple_path (objs g) va w p ∧ item_at (objs g) w = Some b
                 ∧ (length p ≤ 21)%nat) as Hsound.
  { intros ->. apply check_connected_true in Hr; [|set_solver].
    destruct Hr as (w & p & Hp & Hw & _ & Hlen).
    exists w, p. split_and!; [done..|lia]. }
  split; [done|]. intros Hsmall. split.
  - intros (w & p & (Hhd & Hla & Hwalk & _) & Hw & _)%Hsound.
    exists w. split; [|done]. by eapply walk_rtc.
  - intros (w & Hrtc & Hw). destruct r; [done|].
    apply (check_connected_false _ _ _ _ _ _ 0) in Hr
      as [Hin Hex]; [|done..|set_solver|set_solver|].
    + by destruct (explored_closed _ _ _ _ _ Hex Hin Hrtc) as [_ []].
    + rewrite size_empty. lia.
Qed.

Lemma walk_snoc h (p : list nat) x y :
  walk h p → last p = Some x → edge h x y → walk h (p ++ [y]).
Proof.
  induction p as [|z p IH]; [done|]. destruct p as [|z' p].
  - intros _ [= ->] He. cbn. done.
  - rewrite last_cons_cons. intros [He Hw] Hl Hxy.
    split; [done|]. by apply IH.
Qed.

(** Every vertex of [ball h k u] is at the end of a walk of at most [k]
    edges from [u]. *)
Lemma ball_sound h (k : nat) u w :
  w ∈ ball h k u →
  ∃ p, head p = Some u ∧ last p = Some w ∧ walk h p ∧ (length p ≤ S k)%nat.
Proof.
  revert w. induction k as [|k IH]; intros w; cbn [ball].
  - intros ->%elem_of_singleton. exists [u]. cbn. split_and!; done.
  - intros [Hw|Hw]%elem_of_union.
    + destruct (IH w Hw) as (p & ? & ? & ? & ?). exists p.
      split_and!; try done. lia.
    + apply elem_of_union_list in Hw as (X & HX & Hw).
      apply list_elem_of_fmap in HX as (x & -> & Hx).
      apply elem_of_elements in Hx. apply elem_of_list_to_set in Hw.
      destruct (IH x Hx) as (p & Hhd & Hla & Hwalk & Hlen).
      exists (p ++ [w]). split_and!.
      * destruct p; [done|]. done.
      * apply last_snoc.
      * by eapply walk_snoc.
      * rewrite length_app. cbn. lia.
Qed.

(** Two graphs with the same dictionary whose arenas agree vertex by vertex,
    up to the order of the neighbour sets, are reorderings of each other. *)
Lemma reordered_pointwise g g' :
  vertices g' = vertices g →
  Forall2 (λ x x', item x' = item x ∧ neighbours x' ≡ₚ neighbours x)
          (objs g) (objs g') →
  reordered g g'.
Proof.
  intros Hv Hall. split_and!; [done|symmetry; by eapply Forall2_length|].
  intros v. unfold item_at, nbrs.
  destruct (objs g !! v) as [x|] eqn:E.
  - destruct (Forall2_lookup_l _ _ _ _ _ Hall E) as (x' & -> & Hi & Hp).
    cbn. by rewrite Hi.
  - apply lookup_ge_None in E. rewrite (Forall2_length _ _ _ Hall) in E.
    apply lookup_ge_None in E. by rewrite E.
Qed.

(** *** More on the mutators and the local queries *)

Lemma NoDup_set_add `{EqDecision A} (x : A) (s : list A) :
  NoDup s → NoDup (set_add x s).
Proof.
  intros Hs. unfold set_add. case_decide; [done|].
  apply NoDup_app. split_and!; [done| |apply NoDup_singleton].
  by intros y Hy ->%list_elem_of_singleton.
Qed.

(** Every item held by a vertex of the arena is a key of the dictionary. *)
Lemma built_keys_known g v k :
  built g → item_at (objs g) v = Some k → is_Some (vertices g !! k).
Proof.
  intros Hb. revert v k.
  induction Hb as [|g it _ IH|g item1 item2 _ IH|g g' _ IH (Hv & Hl & Hn)];
    intros v k.
  - done.
  - cbn. rewrite item_at_snoc. case_decide.
    + intros [= <-]. by rewrite lookup_insert_eq.
    + intros Hi%IH. destruct (decide (it = k)) as [->|];
        [by rewrite lookup_insert_eq|by rewrite lookup_insert_ne].
  - destruct (add_edge_cases g item1 item2)
      as [(v1 & v2 & E1 & E2 & ->)|[_ ->]]; [|apply IH].
    cbn. rewrite item_at_add_edge. apply IH.
  - rewrite Hv. destruct (Hn v) as [-> _]. apply IH.
Qed.

(** Neighbour sets hold no reference twice. *)
Lemma built_nbrs_NoDup g v : built g → NoDup (nbrs (objs g) v).
Proof.
  intros Hb. revert v.
  induction Hb as [|g it _ IH|g item1 item2 _ IH|g g' _ IH (Hv & Hl & Hn)];
    intros v.
  - apply NoDup_nil_2.
  - cbn. by rewrite nbrs_snoc.
  - destruct (add_edge_cases g item1 item2)
      as [(v1 & v2 & E1 & E2 & ->)|[_ ->]]; [|apply IH].
    cbn. rewrite !nbrs_add_neighbour.
    repeat case_decide; repeat apply NoDup_set_add; apply IH.
  - destruct (Hn v) as [_ ->]. apply IH.
Qed.

Lemma adjacent_after_add_edge g a b va vb :
  built g → vertices g !! a = Some va → vertices g !! b = Some vb →
  adjacent (add_edge g a b).2 a b = true.
Proof.
  intros Hb Ea Eb. rewrite (add_edge_present _ _ _ _ _ Ea Eb). cbn.
  apply adjacent_true. exists va, vb, va. cbn.
  pose proof (built_vertex_lt _ _ _ Hb Ea).
  pose proof (built_vertex_lt _ _ _ Hb Eb).
  split_and!; [done|done| |].
  - apply edge_add_edge; [done..|]. tauto.
  - rewrite item_at_add_edge. by apply (built_wf g Hb).
Qed.

Lemma adjacent_after_add_edge_rev g a b va vb :
  built g → vertices g !! a = Some va → vertices g !! b = Some vb →
  adjacent (add_edge g a b).2 b a = true.
Proof.
  intros Hb Ea Eb. rewrite (add_edge_present _ _ _ _ _ Ea Eb). cbn.
  apply adjacent_true. exists vb, va, vb. cbn.
  pose proof (built_vertex_lt _ _ _ Hb Ea).
  pose proof (built_vertex_lt _ _ _ Hb Eb).
  split_and!; [done|done| |].
  - apply edge_add_edge; [done..|]. tauto.
  - rewrite item_at_add_edge. by apply (built_wf g Hb).
Qed.

Lemma adjacent_add_edge_mono g a b x y :
  built g → adjacent g x y = true → adjacent (add_edge g a b).2 x y = true.
Proof.
  intros Hb. destruct (add_edge_cases g a b)
    as [(va & vb & Ea & Eb & ->)|[_ ->]]; [|done].
  cbn. rewrite !adjacent_true. intros (vx & vy & u & Ex & Ey & Hu & Hi).
  exists vx, vy, u. cbn.
  pose proof (built_vertex_lt _ _ _ Hb Ea).
  pose proof (built_vertex_lt _ _ _ Hb Eb).
  split_and!; [done|done| |].
  - apply edge_add_edge; [done..|]. tauto.
  - by rewrite item_at_add_edge.
Qed.

Lemma adjacent_add_vertex_mono g it x y :
  vertices g !! it = None →
  adjacent g x y = true → adjacent (add_vertex g it) x y = true.
Proof.
  intros Hnew. rewrite !adjacent_true.
  intros (vx & vy & u & Ex & Ey & Hu & Hi).
  exists vx, vy, u. cbn. split_and!.
  - rewrite lookup_insert_ne; [done|]. intros ->. congruence.
  - rewrite lookup_insert_ne; [done|]. intros ->. congruence.
  - by apply edge_snoc.
  - rewrite item_at_snoc. apply item_at_lt in Hi as Hlt.
    by rewrite decide_False by lia.
Qed.

(** C3. For [item1 != item2], [add_edge] raises ValueError exactly when one
    of the two items is not a vertex of the graph, and then leaves the graph
    as it was.  When both are present it returns and keeps the dictionary
    and the items; afterwards each endpoint is in the neighbour set of the
    other ([adjacent] is true both ways), every neighbour set holds what it
    held before and, for the two endpoints, the other endpoint, and nothing
    else; no neighbour set holds a vertex twice; and a second call changes
    nothing. *)
Theorem add_edge_spec g item1 item2 :
  built g → item1 ≠ item2 →
  ((add_edge g item1 item2).1 = Raises ValueError ↔
     vertices g !! item1 = None ∨ vertices g !! item2 = None)
  ∧ ((add_edge g item1 item2).1 = Raises ValueError →
     (add_edge g item1 item2).2 = g)
  ∧ (∀ v1 v2,
       vertices g !! item1 = Some v1 → vertices g !! item2 = Some v2 →
       let g' := (add_edge g item1 item2).2 in
       (add_edge g item1 item2).1 = Returns tt
       ∧ vertices g' = vertices g
       ∧ length (objs g') = length (objs g)
       ∧ (∀ w, item_at (objs g') w = item_at (objs g) w)
       ∧ v2 ∈ nbrs (objs g') v1 ∧ v1 ∈ nbrs (objs g') v2
       ∧ adjacent g' item1 item2 = true ∧ adjacent g' item2 item1 = true
       ∧ (∀ w u, u ∈ nbrs (objs g') w ↔
                 u ∈ nbrs (objs g) w ∨ (w = v1 ∧ u = v2) ∨ (w = v2 ∧ u = v1))
       ∧ (∀ w, NoDup (nbrs (objs g') w))
       ∧ nbrs (objs g') v1 = set_add v2 (nbrs (objs g) v1)
       ∧ nbrs (objs g') v2 = set_add v1 (nbrs (objs g) v2)
       ∧ (∀ w, w ≠ v1 → w ≠ v2 → nbrs (objs g') w = nbrs (objs g) w)
       ∧ add_edge g' item1 item2 = (Returns tt, g')).
Proof.
  intros Hb Hne. split; [|split].
  - destruct (add_edge_cases g item1 item2)
      as [(v1 & v2 & E1 & E2 & ->)|[Hn ->]]; cbn.
    + split; [done|]. intros [?|?]; congruence.
    + done.
  - destruct (add_edge_cases g item1 item2)
      as [(v1 & v2 & E1 & E2 & ->)|[Hn ->]]; cbn; done.
  - intros v1 v2 E1 E2.
    pose proof (adjacent_after_add_edge g item1 item2 v1 v2 Hb E1 E2) as Hadj.
    pose proof (adjacent_after_add_edge_rev g item1 item2 v1 v2 Hb E1 E2)
      as Hadj'.
    pose proof (built_nbrs_NoDup (add_edge g item1 item2).2) as Hnd.
    rewrite (add_edge_present _ _ _ _ _ E1 E2) in *. cbn in *.
    pose proof (built_vertex_lt _ _ _ Hb E1) as Hv1.
    pose proof (built_vertex_lt _ _ _ Hb E2) as Hv2.
    assert (v1 ≠ v2) as Hv.
    { apply built_wf in Hb as [_ Hkeys]. apply Hkeys in E1, E2. congruence. }
    assert (∀ w u,
              u ∈ nbrs (add_neighbour v2 v1 (add_neighbour v1 v2 (objs g))) w ↔
              u ∈ nbrs (objs g) w ∨ (w = v1 ∧ u = v2) ∨ (w = v2 ∧ u = v1))
      as Hedge.
    { intros w u. apply (edge_add_edge (objs g) v1 v2 w u Hv1 Hv2). }
    split_and!; try done.
    + by rewrite !length_add_neighbour.
    + intros w. apply item_at_add_edge.
    + apply Hedge. tauto.
    + apply Hedge. tauto.
    + intros w. apply Hnd.
      pose proof (built_add_edge g item1 item2 Hb) as Hb'.
      by rewrite (add_edge_present _ _ _ _ _ E1 E2) in Hb'.
    + rewrite !nbrs_add_neighbour, length_add_neighbour.
      rewrite (decide_False (P := v1 = v2 ∧ _)) by tauto.
      by rewrite decide_True.
    + rewrite !nbrs_add_neighbour, length_add_neighbour.
      rewrite (decide_True (P := v2 = v2 ∧ _)) by done.
      rewrite (decide_False (P := v2 = v1 ∧ _)); [done|]. intros [? _]. done.
    + intros w H1 H2. rewrite !nbrs_add_neighbour.
      rewrite !decide_False; tauto.
    + erewrite add_edge_present by done. cbn. f_equal. f_equal.
      rewrite (add_neighbour_already v1 v2).
      * apply add_neighbour_already.
        apply edge_add_edge; [done..|]. tauto.
      * apply edge_add_edge; [done..|]. tauto.
Qed.

(** X1. After [add_edge(a, b)] on a built graph that has both items (equal
    or not), [adjacent(a, b)] and [adjacent(b, a)] are both true. *)
Theorem add_edge_then_adjacent g a b :
  built g → is_Some (vertices g !! a) → is_Some (vertices g !! b) →
  (add_edge g a b).1 = Returns tt
  ∧ adjacent (add_edge g a b).2 a b = true
  ∧ adjacent (add_edge g a b).2 b a = true.
Proof.
  intros Hb [va Ea] [vb Eb]. split_and!.
  - by rewrite (add_edge_present _ _ _ _ _ Ea Eb).
  - by eapply adjacent_after_add_edge.
  - by eapply adjacent_after_add_edge_rev.
Qed.

(** X2. Edges are never removed: two items that are adjacent stay adjacent
    after any [add_edge] call (raising or not) and after [add_vertex] for an
    item that is not yet present. *)
Theorem adjacent_preserved g x y :
  built g → adjacent g x y = true →
  (∀ a b, adjacent (add_edge g a b).2 x y = true)
  ∧ (∀ it, vertices g !! it = None → adjacent (add_vertex g it) x y = true).
Proof.
  intros Hb Hxy. split.
  - intros a b. by apply adjacent_add_edge_mono.
  - intros it Hnew. by apply adjacent_add_vertex_mono.
Qed.

Lemma nbrs_new_vertex h it : nbrs (h ++ [mkVertex it []]) (length h) = [].
Proof.
  rewrite nbrs_snoc. unfold nbrs. by rewrite lookup_ge_None_2 by lia.
Qed.

Lemma list_neighbours_add_vertex_other g it k :
  built g → k ≠ it →
  list_neighbours (add_vertex g it) k = list_neighbours g k.
Proof.
  intros Hb Hne. unfold list_neighbours. cbn.
  rewrite lookup_insert_ne by done.
  destruct (vertices g !! k) as [v|] eqn:Ek; [|done].
  rewrite nbrs_snoc. f_equal.
  destruct (built_wf g Hb) as [Hwf _]. specialize (Hwf v).
  induction (nbrs (objs g) v) as [|u us IH]; [done|]. cbn.
  rewrite item_at_snoc. rewrite decide_False.
  - rewrite IH; [done|]. intros u' Hu'. apply Hwf. by right.
  - assert (u < length (objs g))%nat by (apply Hwf; left). lia.
Qed.

(** X3. The vertex made by [add_vertex(it)] has no neighbour:
    [list_neighbours(it)] is the empty list and [adjacent(x, it)] is false
    for every x, also when it replaces an older vertex of the same item.
    When the item is new in a built graph, [adjacent(it, x)] is false too
    and the neighbour lists of all other items are as before. *)
Theorem add_vertex_isolated g it :
  list_neighbours (add_vertex g it) it = Some []
  ∧ (∀ x, adjacent (add_vertex g it) x it = false)
  ∧ (built g → vertices g !! it = None →
     (∀ x, adjacent (add_vertex g it) it x = false)
     ∧ ∀ k, k ≠ it → list_neighbours (add_vertex g it) k = list_neighbours g k).
Proof.
  split_and!.
  - unfold list_neighbours. cbn. by rewrite lookup_insert_eq, nbrs_new_vertex.
  - intros x. unfold adjacent. cbn. rewrite lookup_insert_eq.
    rewrite nbrs_new_vertex. by destruct (_ !! x).
  - intros Hb Hnew. split.
    + intros x. destruct (adjacent (add_vertex g it) it x) eqn:E; [|done].
      apply adjacent_true in E as (vi & vx & u & Ei & Ex & Hu & Hi).
      cbn in *. apply edge_snoc in Hu.
      destruct (built_wf g Hb) as [Hwf _]. apply Hwf in Hu.
      rewrite item_at_snoc, decide_False in Hi by lia.
      apply (built_keys_known g u it Hb) in Hi as [? ?]. congruence.
    + intros k Hk. by apply list_neighbours_add_vertex_other.
Qed.

(** X4. On a built graph that has the item a, the list
    [list_neighbours(a)] holds b exactly when [adjacent(b, a)] is true. *)
Theorem list_neighbours_adjacent g a b l :
  built g → list_neighbours g a = Some l →
  b ∈ l ↔ adjacent g b a = true.
Proof.
  intros Hb. unfold list_neighbours.
  destruct (vertices g !! a) as [va|] eqn:Ea; [|done]. intros [= <-].
  rewrite list_elem_of_omap, adjacent_true. split.
  - intros (u & Hu & Hi).
    destruct (built_keys_known g u b Hb Hi) as [vb Eb].
    exists vb, va, u. done.
  - intros (vb & va' & u & Eb & Ea' & Hu & Hi).
    assert (va' = va) as -> by congruence. by exists u.
Qed.

(** X5. On a graph built without adding a vertex twice,
    [list_neighbours(a)] holds no item twice, and has one item for each
    reference of the neighbour set. *)
Theorem list_neighbours_NoDup g a va l :
  built_fresh g → vertices g !! a = Some va → list_neighbours g a = Some l →
  NoDup l ∧ length l = length (nbrs (objs g) va).
Proof.
  intros Hb Ea. unfold list_neighbours. rewrite Ea. intros [= <-].
  destruct (built_fresh_inv g Hb) as [Hstale _].
  pose proof (built_fresh_built g Hb) as Hbb.
  destruct (built_wf g Hbb) as [Hwf _]. specialize (Hwf va).
  pose proof (built_nbrs_NoDup g va Hbb) as Hnd.
  induction (nbrs (objs g) va) as [|u us IH]; [split; [apply NoDup_nil_2|done]|].
  apply NoDup_cons in Hnd as [Hu Hnd].
  assert (u < length (objs g))%nat as Hlt by (apply Hwf; left).
  destruct (lookup_lt_is_Some_2 _ _ Hlt) as [x Hx].
  assert (item_at (objs g) u = Some (item x)) as Hiu.
  { unfold item_at. by rewrite Hx. }
  cbn [omap list_omap]. rewrite Hiu.
  destruct IH as [IH1 IH2]; [intros u' Hu'; apply Hwf; by right|done|].
  split; [|cbn [length]; by rewrite IH2].
  apply NoDup_cons. split; [|done].
  intros (u' & Hu' & Hi)%list_elem_of_omap.
  apply Hstale in Hi, Hiu. congruence.
Qed.

(** *** Counting edges and degrees *)

Lemma sum_list_fmap_bump (m : gmap Item nat) (f f' : Item * nat → nat)
    (k : Item) (x n : nat) :
  m !! k = Some x → f' (k, x) = (f (k, x) + n)%nat →
  (∀ k' x', k' ≠ k → m !! k' = Some x' → f' (k', x') = f (k', x')) →
  sum_list (f' <$> map_to_list m) = (sum_list (f <$> map_to_list m) + n)%nat.
Proof.
  intros Hk Hf Hrest. rewrite <- !(map_to_list_delete m k x) by done.
  cbn. rewrite Hf.
  assert (f' <$> map_to_list (delete k m) = f <$> map_to_list (delete k m))
    as ->; [|unfold id; lia].
  apply Forall_fmap_ext, Forall_forall. intros [k' x'] Hin.
  apply elem_of_map_to_list, lookup_delete_Some in Hin as [Hne Hin].
  apply Hrest; done.
Qed.

Lemma length_set_add_new `{EqDecision A} (x : A) (s : list A) :
  x ∉ s → length (set_add x s) = S (length s).
Proof.
  intros Hx. unfold set_add. rewrite decide_False by done.
  rewrite length_app. cbn. lia.
Qed.

Lemma div2_bump (n : nat) : ((n + 1 + 1) / 2 = S (n / 2))%nat.
Proof.
  replace (n + 1 + 1)%nat with (n + 1 * 2)%nat by lia.
  rewrite Nat.div_add by lia. lia.
Qed.

(** Two keys of the dictionary never share a vertex. *)
Lemma built_vertices_inj g k1 k2 v :
  built g → vertices g !! k1 = Some v → vertices g !! k2 = Some v → k1 = k2.
Proof.
  intros Hb E1 E2. destruct (built_wf g Hb) as [_ Hkeys].
  apply Hkeys in E1, E2. congruence.
Qed.

Lemma adjacent_false_not_edge g a b va vb :
  built g → vertices g !! a = Some va → vertices g !! b = Some vb →
  adjacent g a b = false → ¬ edge (objs g) vb va.
Proof.
  intros Hb Ea Eb Hadj He.
  assert (adjacent g a b = true) as Ht; [|congruence].
  apply adjacent_true. exists va, vb, va. split_and!; try done.
  by apply (built_wf g Hb).
Qed.

(** X6. On a built graph, [add_edge(a, b)] for two distinct present items
    that are not adjacent makes [num_edges()] grow by exactly one. *)
Theorem num_edges_add_edge g a b :
  built g → a ≠ b →
  is_Some (vertices g !! a) → is_Some (vertices g !! b) →
  adjacent g a b = false → adjacent g b a = false →
  num_edges (add_edge g a b).2 = S (num_edges g).
Proof.
  intros Hb Hne [va Ea] [vb Eb] Hab Hba.
  pose proof (adjacent_false_not_edge g a b va vb Hb Ea Eb Hab) as Hn1.
  pose proof (adjacent_false_not_edge g b a vb va Hb Eb Ea Hba) as Hn2.
  pose proof (built_vertex_lt _ _ _ Hb Ea) as Hva.
  pose proof (built_vertex_lt _ _ _ Hb Eb) as Hvb.
  assert (va ≠ vb) as Hv.
  { intros ->. apply Hne. by eapply built_vertices_inj. }
  rewrite (add_edge_present _ _ _ _ _ Ea Eb). unfold num_edges, degrees. cbn.
  set (h1 := add_neighbour va vb (objs g)).
  rewrite (sum_list_fmap_bump (vertices g) (λ kv, length (nbrs h1 kv.2))
             _ b vb 1).
  - rewrite (sum_list_fmap_bump (vertices g)
               (λ kv, length (nbrs (objs g) kv.2)) _ a va 1).
    + apply div2_bump.
    + done.
    + cbn. unfold h1. rewrite nbrs_add_neighbour, decide_True by done.
      rewrite length_set_add_new by done. lia.
    + intros k' x' Hk' E'. cbn. unfold h1.
      rewrite nbrs_add_neighbour, decide_False; [done|].
      intros [-> _]. apply Hk'. by eapply built_vertices_inj.
  - done.
  - cbn. rewrite nbrs_add_neighbour.
    rewrite decide_True
      by (split; [done|unfold h1; by rewrite length_add_neighbour]).
    rewrite length_set_add_new; [lia|].
    unfold h1. rewrite nbrs_add_neighbour, decide_False; [done|].
    intros [? _]. done.
  - intros k' x' Hk' E'. cbn.
    rewrite nbrs_add_neighbour, decide_False; [done|].
    intros [-> _]. apply Hk'. by eapply built_vertices_inj.
Qed.

(** X7. On a built graph, [add_vertex] for an item that is not yet present
    leaves [num_edges()] as it is; the empty graph has no edge. *)
Theorem num_edges_add_vertex g it :
  built g → vertices g !! it = None →
  num_edges (add_vertex g it) = num_edges g
  ∧ num_edges (Item:=Item) empty_graph = 0%nat.
Proof.
  intros Hb Hnew. split.
  2:{ unfold num_edges, degrees. cbn. by rewrite map_to_list_empty. }
  unfold num_edges, degrees. cbn.
  rewrite map_to_list_insert by done. cbn.
  rewrite nbrs_new_vertex. cbn.
  assert (∀ l : list (Item * nat),
            (λ kv, length (nbrs (objs g ++ [mkVertex it []]) kv.2)) <$> l
            = (λ kv, length (nbrs (objs g) kv.2)) <$> l) as ->; [|done].
  intros l. apply Forall_fmap_ext, Forall_forall. intros [k x] _. cbn.
  by rewrite nbrs_snoc.
Qed.

(** X8. [max_degree()] raises ValueError exactly when the graph has no
    vertex; otherwise the number it returns is the size of the neighbour set
    of some vertex, and no vertex has a larger one. *)
Theorem max_degree_spec g :
  (max_degree g = Raises ValueError ↔ vertices g = ∅)
  ∧ ∀ n, max_degree g = Returns n →
      (∃ k v, vertices g !! k = Some v ∧ length (nbrs (objs g) v) = n)
      ∧ ∀ k v, vertices g !! k = Some v → (length (nbrs (objs g) v) ≤ n)%nat.
Proof.
  unfold max_degree. split.
  - rewrite <- map_to_list_empty_iff. unfold degrees.
    destruct (map_to_list (vertices g)) as [|kv l]; cbn; [done|].
    split; done.
  - intros n Hn.
    assert (degrees g ≠ [] ∧ n = max_list (degrees g)) as [E ->].
    { destruct (degrees g) as [|d ds]; [done|]. by injection Hn as <-. }
    split.
    + assert (max_list (degrees g) ∈ degrees g) as Hin.
      { by apply max_list_elem_of. }
      unfold degrees in Hin at 2.
      apply list_elem_of_fmap in Hin as ([k v] & Hkv & Hin).
      apply elem_of_map_to_list in Hin. exists k, v. done.
    + intros k v Hk. apply max_list_elem_of_le. unfold degrees.
      apply list_elem_of_fmap. exists (k, v). split; [done|].
      by apply elem_of_map_to_list.
Qed.

(** *** Loading the records of a file *)

Lemma read_record_ok g a b :
  built_fresh g →
  ∃ g', read_record g a b = (Returns tt, g') ∧ built_fresh g'
        ∧ adjacent g' a b = true ∧ adjacent g' b a = true
        ∧ (∀ x y, adjacent g x y = true → adjacent g' x y = true).
Proof.
  intros Hb. unfold read_record.
  set (g1 := if decide (vertices g !! a = None) then add_vertex g a else g).
  assert (built_fresh g1 ∧ is_Some (vertices g1 !! a)
          ∧ ∀ x y, adjacent g x y = true → adjacent g1 x y = true)
    as (Hb1 & Ha1 & Hm1).
  { unfold g1. case_decide as Hd.
    - split_and!; [by constructor|cbn; by rewrite lookup_insert_eq|].
      intros x y. by apply adjacent_add_vertex_mono.
    - split_and!; [done| |done]. by destruct (vertices g !! a). }
  clearbody g1.
  set (g2 := if decide (vertices g1 !! b = None) then add_vertex g1 b else g1).
  assert (built_fresh g2 ∧ is_Some (vertices g2 !! a)
          ∧ is_Some (vertices g2 !! b)
          ∧ ∀ x y, adjacent g1 x y = true → adjacent g2 x y = true)
    as (Hb2 & Ha2 & Hb2' & Hm2).
  { unfold g2. case_decide as Hd.
    - split_and!; [by constructor| |cbn; by rewrite lookup_insert_eq|].
      + cbn. apply lookup_insert_is_Some'. by right.
      + intros x y. by apply adjacent_add_vertex_mono.
    - split_and!; [done|done| |done]. by destruct (vertices g1 !! b). }
  clearbody g2. pose proof (built_fresh_built g2 Hb2) as Hbb.
  destruct Ha2 as [va Ea], Hb2' as [vb Eb].
  exists (add_edge g2 a b).2. split_and!.
  - by rewrite (add_edge_present _ _ _ _ _ Ea Eb).
  - by constructor.
  - by eapply adjacent_after_add_edge.
  - by eapply adjacent_after_add_edge_rev.
  - intros x y Hxy. by apply adjacent_add_edge_mono, Hm2, Hm1.
Qed.

(** X9. The loading loop of [read_file] never raises: it adds a vertex only
    for an item that is not yet present, so [add_edge] finds both items.
    After the loop every record (a, b) of the file has [adjacent(a, b)] and
    [adjacent(b, a)] true, and what was adjacent before still is. *)
Theorem read_records_spec g rs :
  built_fresh g →
  ∃ g', read_records g rs = (Returns tt, g') ∧ built_fresh g'
        ∧ (∀ a b, (a, b) ∈ rs →
             adjacent g' a b = true ∧ adjacent g' b a = true)
        ∧ (∀ x y, adjacent g x y = true → adjacent g' x y = true).
Proof.
  revert g. induction rs as [|[a b] rs IH]; intros g Hb.
  - exists g. split_and!; [done|done| |done]. by intros a b Hin%elem_of_nil.
  - destruct (read_record_ok g a b Hb) as (g1 & E1 & Hb1 & Hab & Hba & Hm1).
    destruct (IH g1 Hb1) as (g' & E' & Hb' & Hall & Hm').
    exists g'. cbn [read_records]. rewrite E1. split_and!; [done|done| |].
    + intros x y [[= -> ->]|Hin]%elem_of_cons; [|by apply Hall].
      split; by apply Hm'.
    + intros x y Hxy. by apply Hm', Hm1.
Qed.

Lemma read_record_pre g a b :
  built_pre g → a ≠ b → built_pre (read_record g a b).2.
Proof.
  intros Hb Hne. unfold read_record.
  set (g1 := if decide (vertices g !! a = None) then add_vertex g a else g).
  assert (built_pre g1 ∧ is_Some (vertices g1 !! a)) as (Hb1 & Ha1).
  { unfold g1. case_decide as Hd.
    - split; [by constructor|cbn; by rewrite lookup_insert_eq].
    - split; [done|]. by destruct (vertices g !! a). }
  clearbody g1.
  set (g2 := if decide (vertices g1 !! b = None) then add_vertex g1 b else g1).
  assert (built_pre g2 ∧ is_Some (vertices g2 !! a)
          ∧ is_Some (vertices g2 !! b)) as (Hb2 & Ha2 & Hb2').
  { unfold g2. case_decide as Hd.
    - split_and!; [by constructor| |cbn; by rewrite lookup_insert_eq].
      cbn. apply lookup_insert_is_Some'. by right.
    - split_and!; [done|done|]. by destruct (vertices g1 !! b). }
  by constructor.
Qed.

(** X10. When no record of the file joins an item with itself, the graph
    that the loading loop of [read_file] leaves from the empty graph (or any
    graph built within the preconditions) keeps the invariants: symmetric
    neighbour relation, no vertex its own neighbour, keys mapped to vertices
    holding them. *)
Theorem read_records_invariants g rs :
  built_pre g → Forall (λ r, r.1 ≠ r.2) rs →
  let g' := (read_records g rs).2 in
  built_pre g' ∧ symmetric (objs g') ∧ loop_free (objs g') ∧ wf_keys g'.
Proof.
  intros Hb Hrs.
  assert (built_pre (read_records g rs).2) as Hb'.
  { revert g Hb. induction Hrs as [|[a b] rs Hne Hrs IH]; intros g Hb; [done|].
    cbn [read_records].
    pose proof (read_record_pre g a b Hb Hne) as Hb1.
    destruct (read_record_ok g a b (built_pre_fresh g Hb))
      as (g1 & E1 & _). rewrite E1 in *. cbn in Hb1. by apply IH. }
  cbn. split_and!; [done| | |].
  - apply (built_fresh_inv _ (built_pre_fresh _ Hb')).
  - by apply built_pre_loop_free.
  - apply (built_wf _ (built_fresh_built _ (built_pre_fresh _ Hb'))).
Qed.

(** *** More on the depth-first search *)

Lemma check_connected_at_target fuel h self target_item (V : gset nat) depth :
  (0 < fuel)%nat → (depth ≤ 20)%Z → item_at h self = Some target_item →
  check_connected fuel h self target_item V depth = Some (true, V).
Proof.
  intros Hf Hd Hi. destruct fuel as [|fuel]; [lia|].
  cbn [check_connected]. rewrite decide_False by lia.
  unfold item_at in Hi. destruct (h !! self) as [vx|]; [|done].
  injection Hi as Hi. cbn. by rewrite decide_True.
Qed.

Lemma connected_loop_inv rec (us : list nat) (V V' : gset nat) (r : bool)
    (P : gset nat → Prop) :
  (∀ u V1 (r1 : bool) V2, rec u V1 = Some (r1, V2) → P V1 → P V2) →
  connected_loop rec us V = Some (r, V') → P V → P V'.
Proof.
  intros Hrec. revert V. induction us as [|u us IH]; intros V; cbn.
  - by intros [= _ <-].
  - case_decide; [|apply IH].
    destruct (rec u V) as [[r1 V1]|] eqn:E; [cbn|done].
    destruct r1.
    + intros [= _ <-]. by eapply Hrec.
    + intros Hl HP. eapply IH; [done|]. by eapply Hrec.
Qed.

(** A vertex holding the target is never put into [visited]. *)
Lemma check_connected_no_target fuel h self target_item (V V' : gset nat)
    depth (r : bool) :
  check_connected fuel h self target_item V depth = Some (r, V') →
  (∀ y, y ∈ V → item_at h y ≠ Some target_item) →
  ∀ y, y ∈ V' → item_at h y ≠ Some target_item.
Proof.
  revert self V V' depth r.
  induction fuel as [|fuel IH]; intros self V V' depth r; [done|].
  cbn [check_connected]. case_decide; [by intros [= _ <-]|].
  destruct (h !! self) as [vx|] eqn:Hv; [cbn [mbind option_bind]|done].
  case_decide as Hit; [by intros [= _ <-]|].
  intros Hl HV.
  refine (connected_loop_inv _ _ _ _ _
            (λ W, ∀ y, y ∈ W → item_at h y ≠ Some target_item) _ Hl _).
  - intros u V1 r1 V2. apply IH.
  - intros y [->%elem_of_singleton|Hy]%elem_of_union; [|by apply HV].
    unfold item_at. rewrite Hv. cbn. congruence.
Qed.

Lemma connected_loop_hits h target_item rec (us : list nat) (V : gset nat) u :
  (∀ x W, x ∈ us → is_Some (rec x W)) →
  (∀ x V1 (r1 : bool) V2, rec x V1 = Some (r1, V2) →
     (∀ y, y ∈ V1 → item_at h y ≠ Some target_item) →
     ∀ y, y ∈ V2 → item_at h y ≠ Some target_item) →
  (∀ W, rec u W = Some (true, W)) →
  u ∈ us → item_at h u = Some target_item →
  (∀ y, y ∈ V → item_at h y ≠ Some target_item) →
  ∃ V', connected_loop rec us V = Some (true, V').
Proof.
  intros Htot Hinv Hu Hin Hi. revert V.
  induction us as [|x us IH]; intros V HV; [by apply elem_of_nil in Hin|].
  cbn. case_decide as Hx.
  - destruct (Htot x V) as [[r1 V1] E]; [by left|]. rewrite E. cbn.
    destruct r1; [by eexists|].
    apply elem_of_cons in Hin as [->|Hin].
    + rewrite Hu in E. done.
    + apply IH; [|done|by eapply Hinv].
      intros y W Hy. apply Htot. by right.
  - apply elem_of_cons in Hin as [->|Hin].
    + exfalso. by apply (HV x).
    + apply IH; [|done..]. intros y W Hy. apply Htot. by right.
Qed.

(** X11. On a built graph [connected(a, a)] is true exactly when a is a
    vertex, and [connected(a, b)] is false as soon as one of the two items
    is not a vertex. *)
Theorem connected_reflexive g a b :
  built g →
  (connected g a a = Some true ↔ is_Some (vertices g !! a))
  ∧ (vertices g !! a = None ∨ vertices g !! b = None →
     connected g a b = Some false).
Proof.
  intros Hb. split.
  - unfold connected. destruct (vertices g !! a) as [va|] eqn:Ea.
    + split; [done|]. intros _.
      rewrite (check_connected_at_target fuel0 (objs g) va a ∅ 0);
        [done|unfold fuel0; lia|lia|by apply (built_wf g Hb)].
    + split; [done|]. by intros [? ?].
  - intros Hn. unfold connected.
    destruct (vertices g !! a), (vertices g !! b); naive_solver.
Qed.

Lemma adjacent_flip g x y :
  built_fresh g → adjacent g x y = true → adjacent g y x = true.
Proof.
  intros Hb. destruct (built_fresh_inv g Hb) as [Hs Hy].
  rewrite !adjacent_true. intros (vx & vy & u & Ex & Ey & Hu & Hi).
  apply Hs in Hi. assert (u = vx) as -> by congruence.
  exists vy, vx, vy. split_and!; try done.
  - by apply Hy.
  - by apply (built_wf g (built_fresh_built g Hb)).
Qed.

Lemma neighbour_connected g a b :
  built g → adjacent g b a = true → connected g a b = Some true.
Proof.
  intros Hb (vb & va & u & Eb & Ea & Hu & Hi)%adjacent_true.
  destruct (built_wf g Hb) as [Hwf Hkeys].
  pose proof (built_vertex_lt _ _ _ Hb Ea) as Hva.
  unfold connected. rewrite Ea, Eb.
  assert (∃ f, fuel0 = S f ∧ (20 < f)%nat) as (f & -> & Hf).
  { unfold fuel0. eexists. split; [done|lia]. }
  cbn [check_connected]. rewrite decide_False by lia.
  destruct (lookup_lt_is_Some_2 _ _ Hva) as [vx Hv]. rewrite Hv.
  cbn [mbind option_bind]. case_decide as Hit; [done|].
  match goal with
  | |- context [connected_loop ?rec ?us ?V] =>
      destruct (connected_loop_hits (objs g) b rec us V u) as [V' ->]
  end; [..|done].
  - intros x W Hx. apply check_connected_total; [done| |lia..].
    apply (Hwf va). unfold nbrs. by rewrite Hv.
  - intros x V1 r1 V2. apply check_connected_no_target.
  - intros W. apply check_connected_at_target; [lia|lia|done].
  - unfold edge, nbrs in Hu. by rewrite Hv in Hu.
  - done.
  - intros y [->%elem_of_singleton|Hy]%elem_of_union; [|set_solver].
    unfold item_at. rewrite Hv. cbn. congruence.
Qed.

(** X12. Items joined by an edge are always found connected, whatever the
    size of the graph and the order of iteration: on a graph built without
    adding a vertex twice, [adjacent(a, b)] true implies [connected(a, b)]
    and [connected(b, a)] true. *)
Theorem adjacent_connected g a b :
  built_fresh g → adjacent g a b = true →
  connected g a b = Some true ∧ connected g b a = Some true.
Proof.
  intros Hb Hab. pose proof (built_fresh_built g Hb) as Hbb. split.
  - apply neighbour_connected; [done|]. by apply adjacent_flip.
  - by apply neighbour_connected.
Qed.

(** *** More on the bounded-distance search *)

Lemma distance_any_true_inv rec (nv : gset nat) (us : list nat) :
  distance_any rec nv us = Some true →
  ∃ u, u ∈ us ∧ (u ∉ nv) ∧ rec u = Some true.
Proof.
  induction us as [|x us IH]; cbn; [done|]. case_decide as Hx.
  - destruct (rec x) as [[|]|] eqn:E; cbn; [|..|done].
    + intros _. exists x. split_and!; [by left|done..].
    + intros (u & ? & ? & ?)%IH. exists u. split_and!; [by right|done..].
  - intros (u & ? & ? & ?)%IH. exists u. split_and!; [by right|done..].
Qed.

Lemma distance_any_true rec (nv : gset nat) (us : list nat) u :
  (∀ x, x ∈ us → is_Some (rec x)) → u ∈ us → u ∉ nv → rec u = Some true →
  distance_any rec nv us = Some true.
Proof.
  intros Htot Hin Hu Hr. induction us as [|x us IH];
    [by apply elem_of_nil in Hin|].
  cbn. assert (u ∈ us → distance_any rec nv us = Some true) as IH'.
  { intros Hus. apply IH; [|done]. intros y Hy. apply Htot. by right. }
  case_decide as Hx.
  - destruct (Htot x) as [[|] E]; [by left|by rewrite E|]. rewrite E. cbn.
    apply elem_of_cons in Hin as [->|Hin]; [congruence|by apply IH'].
  - apply elem_of_cons in Hin as [->|Hin]; [done|by apply IH'].
Qed.

(** Soundness of the bounded search. *)
Lemma check_connected_distance_true fuel h self target_item (V : gset nat) d :
  self ∉ V →
  check_connected_distance fuel h self target_item V d = Some true →
  found_path h target_item (d + 1) V self.
Proof.
  revert self V d. induction fuel as [|fuel IH]; intros self V d Hs; [done|].
  cbn [check_connected_distance].
  destruct (h !! self) as [vx|] eqn:Hv; [cbn [mbind option_bind]|done].
  case_decide as Hit.
  - intros _. destruct Hit as [Hit Hd]. exists self, [self]. split_and!.
    + repeat split; try done. apply NoDup_singleton.
    + unfold item_at. by rewrite Hv, <- Hit.
    + by intros x ->%list_elem_of_singleton.
    + cbn. lia.
  - case_decide as Hd; [done|].
    intros (u & Hu & Hnv & Hr)%distance_any_true_inv.
    apply IH in Hr; [|done].
    destruct Hr as (w & p & (Hhd & Hla & Hwalk & Hnd) & Hw & Hav & Hlen).
    destruct p as [|u' p]; [done|]. injection Hhd as ->.
    exists w, (self :: u :: p). split_and!.
    + repeat split; try done.
      * unfold edge, nbrs. by rewrite Hv.
      * apply NoDup_cons. split; [|done].
        intros Hin. apply Hav in Hin. set_solver.
    + done.
    + intros x [->|Hx]%elem_of_cons; [done|].
      apply Hav in Hx. set_solver.
    + cbn [length] in *. lia.
Qed.

(** Completeness of the bounded search: every branch has its own copy of
    [visited], so no simple path within the budget is missed. *)
Lemma check_connected_distance_finds fuel h self target_item (V : gset nat) d :
  wf_arena h → (self < length h)%nat →
  (0 < fuel)%nat → (d + 1 < Z.of_nat fuel)%Z →
  found_path h target_item (d + 1) V self →
  check_connected_distance fuel h self target_item V d = Some true.
Proof.
  intros Hwf. revert self V d.
  induction fuel as [|fuel IH]; intros self V d Hs Hf Hd; [lia|].
  intros (w & p & (Hhd & Hla & Hwalk & Hnd) & Hw & Hav & Hlen).
  destruct p as [|x p]; [done|]. injection Hhd as ->.
  cbn [check_connected_distance].
  destruct (lookup_lt_is_Some_2 h self Hs) as [vx Hv]. rewrite Hv.
  cbn [mbind option_bind]. cbn [length] in Hlen.
  case_decide as Hit; [done|]. rewrite decide_False by lia.
  assert (item vx ≠ target_item) as Hne.
  { intros Heq. apply Hit. split; [done|lia]. }
  destruct p as [|u p].
  { injection Hla as <-. unfold item_at in Hw. rewrite Hv in Hw.
    injection Hw as Hw. done. }
  destruct Hwalk as [He Hwalk]. apply NoDup_cons in Hnd as [Hself Hnd].
  rewrite last_cons_cons in Hla.
  apply (distance_any_true _ _ _ u).
  - intros y Hy. apply check_connected_distance_total; [done| |lia..].
    apply (Hwf self). unfold nbrs. by rewrite Hv.
  - unfold edge, nbrs in He. by rewrite Hv in He.
  - assert (u ∉ V) by (apply Hav; right; left).
    assert (u ≠ self) by (intros ->; apply Hself; left).
    set_solver.
  - apply IH; [by apply (Hwf self)|lia|lia|].
    exists w, (u :: p). split_and!.
    + repeat split; done.
    + done.
    + intros y Hy. assert (y ∉ V) by (apply Hav; by right).
      assert (y ≠ self) by (intros ->; done). set_solver.
    + cbn [length] in *. lia.
Qed.

Lemma connected_distance_char g a b va vb d :
  built g → vertices g !! a = Some va → vertices g !! b = Some vb →
  (0 ≤ d ≤ 20)%Z →
  ∃ r, connected_distance g a b d = Some r
       ∧ (r = true ↔ found_path (objs g) b (d + 1) ∅ va).
Proof.
  intros Hb Ea Eb Hd. destruct (built_wf g Hb) as [Hwf Hkeys].
  pose proof (built_vertex_lt _ _ _ Hb Ea) as Hva.
  unfold connected_distance. rewrite decide_False by lia. rewrite Ea, Eb.
  destruct (check_connected_distance_total fuel0 (objs g) va b ∅ d)
    as [r Hr]; [done|done|unfold fuel0; lia..|].
  exists r. split; [done|]. split.
  - intros ->. apply (check_connected_distance_true _ _ _ _ _ _ (not_elem_of_empty va)) in Hr.
    done.
  - intros Hp.
    rewrite (check_connected_distance_finds fuel0 (objs g) va b ∅ d) in Hr;
      [congruence|done|done|unfold fuel0; lia..|done].
Qed.

(** X13. For two vertices a and b of a built graph and [0 <= d <= 20],
    [connected_distance(a, b, d)] is true exactly when a simple path of at
    most d edges leads from the vertex of a to a vertex holding b. *)
Theorem connected_distance_spec g a b va vb d :
  built g → vertices g !! a = Some va → vertices g !! b = Some vb →
  (0 ≤ d ≤ 20)%Z →
  ∃ r, connected_distance g a b d = Some r
       ∧ (r = true ↔
          ∃ w p, simple_path (objs g) va w p ∧ item_at (objs g) w = Some b
                 ∧ (Z.of_nat (length p) ≤ d + 1)%Z).
Proof.
  intros Hb Ea Eb Hd.
  destruct (connected_distance_char g a b va vb d Hb Ea Eb Hd) as (r & Hr & Hiff).
  exists r. split; [done|]. rewrite Hiff. unfold found_path. split.
  - intros (w & p & ? & ? & _ & ?). by exists w, p.
  - intros (w & p & ? & ? & ?). exists w, p.
    split_and!; try done; intros x _; apply not_elem_of_empty.
Qed.

Lemma distance_outside_range g a b d :
  built g → (d < 0 ∨ 20 < d)%Z → connected_distance g a b d = Some false.
Proof.
  intros Hb Hd. unfold connected_distance. case_decide; [done|].
  destruct (vertices g !! a) as [va|] eqn:Ea; [|done].
  destruct (vertices g !! b) as [vb|] eqn:Eb; [|done].
  pose proof (built_vertex_lt _ _ _ Hb Ea) as Hva.
  assert (∃ f, fuel0 = S f) as [f ->] by (unfold fuel0; by eexists).
  cbn [check_connected_distance].
  destruct (lookup_lt_is_Some_2 _ _ Hva) as [vx ->]. cbn.
  rewrite decide_False by lia. by rewrite decide_True by lia.
Qed.

(** X14. Outside the range 0..20 the answer is always false:
    [connected_distance(a, b, d)] is false for [d > 20] and for [d < 0],
    also when [a == b] is a vertex. *)
Theorem connected_distance_out_of_range g a b d :
  built g → (d < 0 ∨ 20 < d)%Z → connected_distance g a b d = Some false.
Proof. apply distance_outside_range. Qed.

(** X15. A larger budget never loses an answer: if
    [connected_distance(a, b, d)] is true and [d <= d' <= 20], then
    [connected_distance(a, b, d')] is true. *)
Theorem connected_distance_monotone g a b d d' :
  built g → (d ≤ d' ≤ 20)%Z →
  connected_distance g a b d = Some true →
  connected_distance g a b d' = Some true.
Proof.
  intros Hb Hd Ht.
  destruct (decide (d < 0)%Z) as [Hneg|Hpos].
  { rewrite distance_outside_range in Ht by (done || lia). done. }
  destruct (vertices g !! a) as [va|] eqn:Ea.
  2:{ unfold connected_distance in Ht. rewrite Ea in Ht. by case_decide. }
  destruct (vertices g !! b) as [vb|] eqn:Eb.
  2:{ unfold connected_distance in Ht. rewrite Ea, Eb in Ht. by case_decide. }
  destruct (connected_distance_char g a b va vb d) as (r & Hr & Hiff);
    [done..|lia|].
  destruct (connected_distance_char g a b va vb d') as (r' & Hr' & Hiff');
    [done..|lia|].
  rewrite Hr'. f_equal. apply Hiff'.
  assert (r = true) as -> by congruence.
  destruct Hiff as [Hp _]. destruct (Hp eq_refl) as (w & p & ? & ? & ? & ?).
  exists w, p. split_and!; try done. lia.
Qed.

(** X16. Whenever [connected(a, b)] is true, [connected_distance(a, b, 20)]
    is true as well (the converse fails on the ring). *)
Theorem connected_implies_distance g a b :
  built g → connected g a b = Some true →
  connected_distance g a b 20 = Some true.
Proof.
  intros Hb Hc. unfold connected in Hc.
  destruct (vertices g !! a) as [va|] eqn:Ea; [|done].
  destruct (vertices g !! b) as [vb|] eqn:Eb; [|done].
  destruct (check_connected fuel0 (objs g) va b ∅ 0) as [[r V']|] eqn:E;
    [|done].
  cbn in Hc. injection Hc as ->.
  apply check_connected_true in E; [|set_solver].
  destruct (connected_distance_char g a b va vb 20) as (r & Hr & Hiff);
    [done..|lia|].
  rewrite Hr. f_equal. by apply Hiff.
Qed.

(** *** More on the path enumeration *)

Lemma check_connected_path_root_any fuel h self target_item st md md' :
  (0 ≤ md)%Z → (0 ≤ md')%Z →
  check_connected_path fuel h self target_item st 0 md =
  check_connected_path fuel h self target_item st 0 md'.
Proof.
  intros Hm Hm'. destruct fuel as [|fuel]; [done|].
  cbn [check_connected_path]. destruct (h !! self) as [vx|]; [cbn|done].
  by rewrite !decide_True by lia.
Qed.

(** X17. The cap [max_depth] of [connected_path] is only looked at by the
    root call: every cap [>= 0] gives the same result as the default 20, and
    a negative cap gives the empty list (for two vertices of a built
    graph). *)
Theorem connected_path_cap g a b max_depth :
  built g → is_Some (vertices g !! a) → is_Some (vertices g !! b) →
  ((0 ≤ max_depth)%Z →
   connected_path g a b max_depth = connected_path g a b 20)
  ∧ ((max_depth < 0)%Z → connected_path g a b max_depth = Some (Some [])).
Proof.
  intros Hb [va Ea] [vb Eb]. unfold connected_path. rewrite Ea, Eb. split.
  - intros Hm. rewrite (decide_True (P := (20 ≤ 20)%Z)) by lia.
    case_decide; [|done].
    by rewrite (check_connected_path_root_any _ _ _ _ _ max_depth 20) by lia.
  - intros Hm. rewrite decide_True by lia.
    pose proof (built_vertex_lt _ _ _ Hb Ea) as Hva.
    assert (∃ f, fuel0 = S f) as [f ->] by (unfold fuel0; by eexists).
    cbn [check_connected_path].
    destruct (lookup_lt_is_Some_2 _ _ Hva) as [vx ->]. cbn.
    by rewrite decide_False by lia.
Qed.

Lemma connected_path_min_cap g a b max_depth :
  connected_path g a b max_depth =
  match vertices g !! a, vertices g !! b with
  | Some v1, Some _ =>
      returned <$> check_connected_path fuel0 (objs g) v1 b
                     (mkPstate [] [] []) 0 (max_depth `min` 20)%Z
  | _, _ => Some None
  end.
Proof.
  unfold connected_path.
  destruct (vertices g !! a) as [v1|]; [|done].
  destruct (vertices g !! b) as [v2|]; [|done].
  case_decide.
  - by rewrite Z.min_l by lia.
  - by rewrite Z.min_r by lia.
Qed.

Lemma traced_snoc h (vs : list nat) i (p : list Item) :
  traced h (vs ++ [i]) p → traced h vs p.
Proof.
  intros (rest & Hw & Hl & Hn & Hlen). exists (i :: rest).
  rewrite <- app_assoc in Hw, Hl. done.
Qed.

Lemma path_loop_traced h rec (us : list nat) st st' (vs : list nat)
    (P : list Item) :
  (∀ i vi s1 s2, i ∈ us → h !! i = Some vi → item vi ∉ P →
     path s1 = P → visited s1 = P → rec i s1 = Some s2 →
     path s2 = P ∧ visited s2 = P
     ∧ ∀ p, p ∈ final_path s2 → p ∈ final_path s1 ∨ traced h vs p) →
  path st = P → visited st = P →
  path_loop h rec us st = Some st' →
  ∀ p, p ∈ final_path st' → p ∈ final_path st ∨ traced h vs p.
Proof.
  revert st. induction us as [|i us IH]; intros st Hrec Hp Hv; cbn.
  - intros [= <-] p Hin. by left.
  - assert (∀ s, path s = P → visited s = P →
              path_loop h rec us s = Some st' →
              ∀ p, p ∈ final_path st' → p ∈ final_path s ∨ traced h vs p)
      as IH'.
    { intros s Hps Hvs. apply IH; [|done..].
      intros j vj s1 s2 Hj. apply Hrec. by right. }
    destruct (h !! i) as [vi|] eqn:Hi; [cbn|done].
    case_decide as Hd; [|by apply IH'].
    destruct (rec i st) as [s1|] eqn:E; [cbn|done]. intros Hl p Hin.
    rewrite Hv in Hd.
    destruct (Hrec i vi st s1) as (Hp1 & Hv1 & Hf1); [by left|done..|].
    destruct (IH' s1 Hp1 Hv1 Hl p Hin) as [Hin1|?]; [|by right].
    by apply Hf1.
Qed.

Lemma walk_app_last h (vs : list nat) x y :
  walk h (vs ++ [x]) → edge h x y → walk h ((vs ++ [x]) ++ [y]).
Proof. intros Hw He. eapply walk_snoc; [done|apply last_snoc|done]. Qed.

(** Every path that the enumeration records is read off a walk of the
    arena, repeats no item and has at most 21 items. *)
Lemma check_connected_path_traced fuel h self target_item st depth max_depth
    st' (vs : list nat) (x : Item) :
  walk h (vs ++ [self]) → labelled h vs (path st) →
  visited st = path st → item_at h self = Some x →
  NoDup (path st ++ [x]) → Z.of_nat (length (path st)) = depth →
  (max_depth ≤ 20)%Z →
  check_connected_path fuel h self target_item st depth max_depth = Some st' →
  ∀ p, p ∈ final_path st' →
       p ∈ final_path st ∨ traced h (vs ++ [self]) p.
Proof.
  revert self st depth max_depth st' vs x.
  induction fuel as [|fuel IH];
    intros self st depth max_depth st' vs x Hw Hl Hvp Hx Hnd Hlen Hmd; [done|].
  cbn [check_connected_path]. unfold item_at in Hx.
  destruct (h !! self) as [vx|] eqn:Hv; [cbn [mbind option_bind]|done].
  injection Hx as <-.
  assert (labelled h (vs ++ [self]) (path st ++ [item vx])) as Hl'.
  { apply Forall2_app; [done|]. constructor; [|constructor].
    unfold item_at. by rewrite Hv. }
  case_decide as Hd; cbn [visited path final_path].
  - match goal with
    | |- context [path_loop ?hh ?rec ?us ?s] =>
        destruct (path_loop hh rec us s) as [s2|] eqn:El;
          [pose proof (path_loop_traced hh rec us s s2 (vs ++ [self])
                         (path st ++ [item vx])) as Hloop|]
    end; [|done].
    cbn. intros [= <-]. cbn. intros p Hin.
    lazymatch type of Hloop with
    | ?A → _ => assert A as Hrec
    end.
    { intros i vi s1 s2' Hi Hvi Hni Hp1 Hv1 Hr.
      pose proof Hr as Hstep.
      apply check_connected_path_step in Hstep as (vi' & ? & Hv2 & Hp2 & _).
      split_and!; [congruence|congruence|].
      intros p' Hin'.
      eapply (IH _ _ _ _ _ (vs ++ [self]) (item vi)) in Hr.
      - destruct Hr as [?|Ht]; [by left|]. right. by eapply traced_snoc.
      - apply walk_app_last; [done|]. unfold edge, nbrs. by rewrite Hv.
      - by rewrite Hp1.
      - congruence.
      - unfold item_at. by rewrite Hvi.
      - rewrite Hp1. apply NoDup_app.
        split_and!; [done| |apply NoDup_singleton].
        by intros y Hy ->%list_elem_of_singleton.
      - rewrite Hp1, length_app. cbn. lia.
      - lia.
      - done. }
    destruct (Hloop Hrec eq_refl (f_equal (λ l, l ++ [item vx]) Hvp) El p Hin)
      as [Hin'|?]; [|by right].
    cbn in Hin'.
    destruct (visit_target_cases (item vx) target_item
                (path st ++ [item vx]) (final_path st))
      as [Hvt|(Hvt & _)]; rewrite Hvt in Hin'; [by left|].
    apply elem_of_app in Hin' as [?| ->%list_elem_of_singleton]; [by left|].
    right. exists []. rewrite app_nil_r. split_and!; [done..|].
    rewrite length_app. cbn. lia.
  - cbn. intros [= <-]. cbn. intros p Hin. by left.
Qed.

Lemma connected_path_traced g a b max_depth va vb :
  built g → vertices g !! a = Some va → vertices g !! b = Some vb →
  ∃ paths, connected_path g a b max_depth = Some (Some paths)
           ∧ ∀ p, p ∈ paths → traced (objs g) [va] p.
Proof.
  intros Hb Ea Eb.
  destruct (connected_path_present g a b max_depth va vb Hb Ea Eb)
    as (paths & Hcp & _). exists paths. split; [done|].
  destruct (built_wf g Hb) as [Hwf Hkeys].
  rewrite connected_path_min_cap, Ea, Eb in Hcp.
  destruct (check_connected_path fuel0 (objs g) va b (mkPstate [] [] []) 0
              (max_depth `min` 20)%Z) as [st'|] eqn:E; [|done].
  pose proof E as Hstep.
  apply check_connected_path_step in Hstep as (vx & _ & _ & Hp & _).
  cbn in Hp. cbn in Hcp. unfold returned in Hcp. rewrite Hp in Hcp.
  injection Hcp as <-. intros p Hin.
  eapply (check_connected_path_traced _ _ _ _ _ _ _ _ [] a) in E
    as [Hnil|?]; [by apply elem_of_nil in Hnil|done|..|done].
  - done.
  - constructor.
  - done.
  - by apply Hkeys.
  - cbn. apply NoDup_singleton.
  - done.
  - lia.
Qed.

Lemma walk_lookup h (ws : list nat) (i : nat) u w :
  walk h ws → ws !! i = Some u → ws !! S i = Some w → edge h u w.
Proof.
  revert i. induction ws as [|x ws IH]; intros i Hw; [done|].
  destruct ws as [|y ws]; [by destruct i|]. destruct Hw as [He Hw].
  destruct i as [|i]; cbn.
  - by intros [= <-] [= <-].
  - apply IH. done.
Qed.

Lemma labelled_NoDup h (ws : list nat) (p : list Item) :
  labelled h ws p → NoDup p → NoDup ws.
Proof.
  induction 1 as [|w x ws p Hwx Hl IH]; intros Hnd; [apply NoDup_nil_2|].
  apply NoDup_cons in Hnd as [Hx Hnd]. apply NoDup_cons. split; [|by apply IH].
  intros (i & Hi)%list_elem_of_lookup.
  destruct (Forall2_lookup_l _ _ _ _ _ Hl Hi) as (x' & Hx' & Hwx').
  apply Hx. apply list_elem_of_lookup. exists i. congruence.
Qed.

Lemma labelled_last h (ws : list nat) (p : list Item) (x : Item) :
  labelled h ws p → last p = Some x →
  ∃ w, last ws = Some w ∧ item_at h w = Some x.
Proof.
  intros Hl. rewrite !last_lookup. rewrite <- (Forall2_length _ _ _ Hl).
  intros Hx. destruct (Forall2_lookup_r _ _ _ _ _ Hl Hx) as (w & Hw & Hwx).
  by exists w.
Qed.

(** X18. On a built graph every path in the list returned by
    [connected_path], whatever the cap, repeats no item and has between 1
    and 21 items (at most 20 edges). *)
Theorem connected_path_simple g a b max_depth paths (p : list Item) :
  built g → connected_path g a b max_depth = Some (Some paths) → p ∈ paths →
  NoDup p ∧ (1 ≤ length p ≤ 21)%nat.
Proof.
  intros Hb Hcp Hin.
  destruct (vertices g !! a) as [va|] eqn:Ea.
  2:{ rewrite connected_path_absent in Hcp by (by left). done. }
  destruct (vertices g !! b) as [vb|] eqn:Eb.
  2:{ rewrite connected_path_absent in Hcp by (by right). done. }
  destruct (connected_path_traced g a b max_depth va vb Hb Ea Eb)
    as (paths' & Hcp' & Htr).
  assert (paths' = paths) as -> by congruence.
  destruct (Htr p Hin) as (rest & _ & Hl & Hnd & Hlen).
  apply Forall2_length in Hl. cbn in Hl. split; [done|lia].
Qed.

(** X19. On a graph built without adding a vertex twice, every path returned
    by [connected_path] follows edges: two consecutive items of the path are
    adjacent. *)
Theorem connected_path_follows_edges g a b max_depth paths (p : list Item)
    (i : nat) (x y : Item) :
  built_fresh g → connected_path g a b max_depth = Some (Some paths) →
  p ∈ paths → p !! i = Some x → p !! S i = Some y →
  adjacent g x y = true.
Proof.
  intros Hb Hcp Hin Hx Hy. pose proof (built_fresh_built g Hb) as Hbb.
  destruct (built_fresh_inv g Hb) as [Hstale Hsym].
  destruct (vertices g !! a) as [va|] eqn:Ea.
  2:{ rewrite connected_path_absent in Hcp by (by left). done. }
  destruct (vertices g !! b) as [vb|] eqn:Eb.
  2:{ rewrite connected_path_absent in Hcp by (by right). done. }
  destruct (connected_path_traced g a b max_depth va vb Hbb Ea Eb)
    as (paths' & Hcp' & Htr).
  assert (paths' = paths) as -> by congruence.
  destruct (Htr p Hin) as (rest & Hw & Hl & _).
  destruct (Forall2_lookup_r _ _ _ _ _ Hl Hx) as (u & Hu & Hux).
  destruct (Forall2_lookup_r _ _ _ _ _ Hl Hy) as (w & Hw' & Hwy).
  pose proof (walk_lookup _ _ _ _ _ Hw Hu Hw') as He.
  apply adjacent_true. exists u, w, u. split_and!; [by apply Hstale..| |done].
  by apply Hsym.
Qed.

Lemma visit_target_self (a : Item) :
  visit_target a a [a] [] = [[a]].
Proof.
  unfold visit_target. rewrite decide_True.
  - unfold record_path. by rewrite decide_False by (cbn; lia).
  - split; [done|]. apply not_elem_of_nil.
Qed.

(** X20. For a vertex a of a built graph, [shortest_path(a, a)] is the
    one-item path [a]. *)
Theorem shortest_path_self g a :
  built g → is_Some (vertices g !! a) →
  shortest_path g a a = Some (Some [a]).
Proof.
  intros Hb [va Ea]. destruct (built_wf g Hb) as [Hwf Hkeys].
  destruct (connected_path_present g a a 20 va va Hb Ea Ea)
    as (paths & Hcp & _ & Hends).
  unfold shortest_path. rewrite Hcp. cbn.
  rewrite connected_path_min_cap, Ea in Hcp.
  destruct (check_connected_path fuel0 (objs g) va a (mkPstate [] [] []) 0
              (20 `min` 20)%Z) as [st'|] eqn:E; [|done].
  pose proof E as Hstep.
  apply check_connected_path_step in Hstep as (vx & Hvx & _ & Hp & _).
  cbn in Hp. cbn in Hcp. unfold returned in Hcp. rewrite Hp in Hcp.
  injection Hcp as <-.
  apply (check_connected_path_records _ _ _ vx) in E; [|done|lia].
  assert (item vx = a) as Hit.
  { apply Hkeys in Ea. unfold item_at in Ea. rewrite Hvx in Ea.
    by injection Ea. }
  cbn in E. rewrite Hit, visit_target_self in E.
  destruct E as [rest E]. rewrite E in *. cbn [app].
  f_equal. f_equal.
  destruct (min_path_from ([a] :: rest) [a]) as (Hr & Hle & _).
  unfold min_path. cbn [head default from_option]. unfold id.
  destruct Hr as [->|Hr]; [done|].
  apply Hends in Hr as [Hhd _]. cbn [length] in Hle.
  match goal with
  | |- ?r = _ => destruct r as [|z [|z' r']]; cbn in *; [done| |lia]
  end.
  congruence.
Qed.

Lemma visit_target_nonempty it target_item (p : list Item) fp :
  it = target_item → visit_target it target_item p fp ≠ [].
Proof.
  intros Hit. destruct fp as [|q fp].
  - unfold visit_target. rewrite decide_True.
    + unfold record_path. by rewrite decide_False by (cbn; lia).
    + split; [done|]. apply not_elem_of_nil.
  - by destruct (visit_target_cases it target_item p (q :: fp))
      as [->|[-> _]].
Qed.

Lemma prefix_nonempty {A} (l l' : list A) :
  l ≠ [] → l `prefix_of` l' → l' ≠ [].
Proof. intros Hl [k ->]. by destruct l. Qed.

Lemma path_loop_finds h rec (us : list nat) st st' u (vu : Vertex)
    (vis : list Item) :
  (∀ i s1 s2, rec i s1 = Some s2 →
     visited s2 = visited s1 ∧ final_path s1 `prefix_of` final_path s2) →
  (∀ s1 s2, visited s1 = vis → rec u s1 = Some s2 → final_path s2 ≠ []) →
  u ∈ us → h !! u = Some vu → item vu ∉ vis → visited st = vis →
  path_loop h rec us st = Some st' → final_path st' ≠ [].
Proof.
  intros Hframe Hfind. revert st.
  induction us as [|i us IH]; intros st Hin Hu Hni Hv;
    [by apply elem_of_nil in Hin|].
  cbn. destruct (h !! i) as [vi|] eqn:Hi; [cbn|done].
  case_decide as Hd.
  - destruct (rec i st) as [s1|] eqn:E; [cbn|done]. intros Hl.
    destruct (Hframe _ _ _ E) as [Hv1 _].
    apply elem_of_cons in Hin as [->|Hin].
    + apply (prefix_nonempty (final_path s1)); [by eapply Hfind|].
      eapply path_loop_prefix; [|done]. intros j s2 s3 Hr.
      by apply Hframe in Hr as [_ ?].
    + apply (IH s1); [done..|congruence|done].
  - apply elem_of_cons in Hin as [->|Hin].
    + exfalso. apply Hni. assert (vi = vu) as <- by congruence.
      by rewrite <- Hv.
    + by apply IH.
Qed.

(** The enumeration misses no short path: when the items of the arena are
    pairwise distinct and a simple path of at most [20 - depth] edges leads
    from the current vertex to the target through items not yet visited, the
    call leaves at least one recorded path. *)
Lemma check_connected_path_finds fuel h self target_item st depth st' :
  (∀ u w k, item_at h u = Some k → item_at h w = Some k → u = w) →
  check_connected_path fuel h self target_item st depth 20 = Some st' →
  (∃ w (p : list nat), simple_path h self w p
     ∧ item_at h w = Some target_item
     ∧ (∀ y k, y ∈ p → item_at h y = Some k → k ∉ visited st)
     ∧ (Z.of_nat (length p) ≤ 21 - depth)%Z) →
  final_path st' ≠ [].
Proof.
  intros Hinj. revert self st depth st'.
  induction fuel as [|fuel IH]; intros self st depth st'; [done|].
  intros Hc (w & p & (Hhd & Hla & Hwalk & Hnd) & Hw & Hav & Hlen).
  destruct p as [|x p]; [done|]. injection Hhd as ->.
  cbn [length] in Hlen. cbn [check_connected_path] in Hc.
  destruct (h !! self) as [vx|] eqn:Hv; [cbn [mbind option_bind] in Hc|done].
  rewrite decide_True in Hc by lia. cbn [visited path final_path] in Hc.
  match type of Hc with
  | context [path_loop ?hh ?rec ?us ?s] =>
      destruct (path_loop hh rec us s) as [s2|] eqn:El
  end; [|done].
  cbn in Hc. injection Hc as <-. cbn.
  assert (∀ i s1 s3,
            check_connected_path fuel h i target_item s1 (depth + 1) 20
              = Some s3 →
            visited s3 = visited s1
            ∧ final_path s1 `prefix_of` final_path s3) as Hframe.
  { intros i s1 s3 Hr. split.
    - by apply check_connected_path_step in Hr as (? & _ & ? & _).
    - by eapply check_connected_path_prefix. }
  destruct (decide (item vx = target_item)) as [Hit|Hit].
  { eapply prefix_nonempty; [by apply visit_target_nonempty|].
    apply path_loop_prefix in El; [done|].
    intros i s1 s3 Hr. by apply Hframe in Hr as [_ ?]. }
  destruct p as [|u p].
  { injection Hla as <-. unfold item_at in Hw. rewrite Hv in Hw.
    injection Hw as Hw. done. }
  destruct Hwalk as [He Hwalk]. apply NoDup_cons in Hnd as [Hself Hnd].
  rewrite last_cons_cons in Hla.
  assert (∀ y k, y ∈ u :: p → item_at h y = Some k →
                 k ∉ visited st ++ [item vx]) as Hav'.
  { intros y k Hy Hk. apply not_elem_of_app. split.
    - eapply Hav; [by right|done].
    - intros ->%list_elem_of_singleton.
      assert (y = self); [|by subst].
      eapply Hinj; [done|]. unfold item_at. by rewrite Hv. }
  assert (u < length h)%nat as Hul.
  { destruct (h !! u) eqn:E'; [by eapply lookup_lt_Some|].
    destruct p as [|u' p].
    - injection Hla as <-. unfold item_at in Hw. by rewrite E' in Hw.
    - destruct Hwalk as [He' _]. unfold edge, nbrs in He'.
      rewrite E' in He'. by apply elem_of_nil in He'. }
  destruct (lookup_lt_is_Some_2 _ _ Hul) as [vu Hvu].
  eapply (path_loop_finds h _ _ _ s2 u vu (visited st ++ [item vx]) Hframe);
    [ | |exact Hvu| | |exact El].
  4: done.
  - intros s1 s3 Hv1 Hr. eapply IH; [done|].
    exists w, (u :: p). split_and!; [repeat split; done|done| |].
    + rewrite Hv1. done.
    + cbn [length] in *. lia.
  - unfold edge, nbrs in He. by rewrite Hv in He.
  - eapply Hav'; [by left|]. unfold item_at. by rewrite Hvu.
Qed.

(** X21. On a graph built without adding a vertex twice, the path
    enumeration and the bounded search agree: for two vertices a and b,
    [shortest_path(a, b)] returns a path exactly when
    [connected_distance(a, b, 20)] is true. *)
Theorem shortest_path_iff_distance g a b :
  built_fresh g → is_Some (vertices g !! a) → is_Some (vertices g !! b) →
  ∃ r, shortest_path g a b = Some r
       ∧ (is_Some r ↔ connected_distance g a b 20 = Some true).
Proof.
  intros Hb [va Ea] [vb Eb]. pose proof (built_fresh_built g Hb) as Hbb.
  destruct (built_fresh_inv g Hb) as [Hstale _].
  destruct (built_wf g Hbb) as [Hwf Hkeys].
  destruct (connected_path_present g a b 20 va vb Hbb Ea Eb)
    as (paths & Hcp & _ & Hends).
  destruct (connected_path_traced g a b 20 va vb Hbb Ea Eb)
    as (paths' & Hcp' & Htr).
  assert (paths' = paths) as -> by congruence. clear Hcp'.
  destruct (connected_distance_char g a b va vb 20 Hbb Ea Eb)
    as (r & Hr & Hiff); [lia|].
  unfold shortest_path. rewrite Hcp. cbn. rewrite Hr.
  destruct paths as [|p0 paths].
  - exists None. split; [done|]. split; [by intros [? ?]|].
    intros [= ->]. exfalso. destruct Hiff as [Hp _].
    destruct (Hp eq_refl) as (w & p & Hsp & Hw & _ & Hlen).
    rewrite connected_path_min_cap, Ea, Eb in Hcp.
    destruct (check_connected_path fuel0 (objs g) va b (mkPstate [] [] []) 0
                (20 `min` 20)%Z) as [st'|] eqn:E; [|done].
    pose proof E as Hstep.
    apply check_connected_path_step in Hstep as (vx & _ & _ & Hpth & _).
    cbn in Hpth. cbn in Hcp. unfold returned in Hcp. rewrite Hpth in Hcp.
    injection Hcp as Hfp.
    assert (final_path st' ≠ []) as Hne; [|done].
    apply (check_connected_path_finds fuel0 (objs g) va b
             (mkPstate [] [] []) 0 st').
    + intros u u' k Hu Hu'. apply Hstale in Hu, Hu'. congruence.
    + exact E.
    + exists w, p. split_and!; [done|done| |lia].
      intros y k _ _. apply not_elem_of_nil.
  - eexists. split; [done|]. split; [|by eexists].
    intros _. f_equal. apply Hiff.
    destruct (Htr p0) as (rest & Hw & Hl & Hnd & Hlen); [by left|].
    destruct (Hends p0) as [_ Hlast]; [by left|].
    destruct (labelled_last _ _ _ _ Hl Hlast) as (w & Hlw & Hwb).
    exists w, ([va] ++ rest). split_and!.
    + split_and!; [done|done|done|]. by eapply labelled_NoDup.
    + done.
    + intros y _. apply not_elem_of_empty.
    + rewrite (Forall2_length _ _ _ Hl). lia.
Qed.

(** *** The programs over the store and the functions above

    Every program returns what the corresponding function computes from the
    store it is given.  The traversals only read the store: they hand it on
    as they got it. *)

Lemma connected_loopM_eq g rec recM (us : list nat) (V : gset nat) :
  (∀ u W, recM u W g = r ← rec u W; Some (r, g)) →
  connected_loopM recM us V g = r ← connected_loop rec us V; Some (r, g).
Proof.
  intros Hrec. revert V. induction us as [|u us IH]; intros V; cbn; [done|].
  case_decide; [|apply IH]. unfold bind. rewrite Hrec.
  destruct (rec u V) as [[found V1]|]; cbn; [|done].
  destruct found; [done|apply IH].
Qed.

Lemma check_connectedM_eq fuel g self target_item (V : gset nat) depth :
  check_connectedM fuel self target_item V depth g =
  r ← check_connected fuel (objs g) self target_item V depth; Some (r, g).
Proof.
  revert self V depth. induction fuel as [|fuel IH]; intros self V depth;
    [done|].
  cbn [check_connectedM check_connected]. case_decide; [done|].
  unfold bind, get_item, get_neighbours.
  destruct (objs g !! self) as [x|] eqn:Hx; cbn; [|done].
  case_decide; [done|]. rewrite Hx. cbn.
  apply connected_loopM_eq. intros u W. apply IH.
Qed.

Lemma path_loopM_eq g rec recM (us : list nat) st :
  (∀ i s, recM i s g = r ← rec i s; Some (r, g)) →
  path_loopM recM us st g = r ← path_loop (objs g) rec us st; Some (r, g).
Proof.
  intros Hrec. revert st. induction us as [|i us IH]; intros st; cbn; [done|].
  unfold bind at 1. unfold get_item.
  destruct (objs g !! i) as [x|]; cbn; [|done].
  case_decide; [|apply IH]. unfold bind. rewrite Hrec.
  destruct (rec i st) as [s1|]; cbn; [apply IH|done].
Qed.

Lemma check_connected_pathM_eq fuel g self target_item st depth max_depth :
  check_connected_pathM fuel self target_item st depth max_depth g =
  r ← check_connected_path fuel (objs g) self target_item st depth max_depth;
  Some (r, g).
Proof.
  revert self st depth max_depth.
  induction fuel as [|fuel IH]; intros self st depth max_depth; [done|].
  cbn [check_connected_pathM check_connected_path].
  unfold bind at 1. unfold get_item.
  destruct (objs g !! self) as [x|] eqn:Hx; cbn [mbind option_bind]; [|done].
  unfold bind at 1. case_decide.
  - unfold bind at 1. unfold get_neighbours. rewrite Hx.
    cbn [mbind option_bind].
    erewrite path_loopM_eq; [|intros i s; apply IH].
    match goal with
    | |- context [path_loop ?hh ?rec ?us ?s] =>
        destruct (path_loop hh rec us s) as [s2|]
    end; done.
  - done.
Qed.

Lemma distance_anyM_eq g rec recM (nv : gset nat) (us : list nat) :
  (∀ u, recM u g = r ← rec u; Some (r, g)) →
  distance_anyM recM nv us g = r ← distance_any rec nv us; Some (r, g).
Proof.
  intros Hrec. induction us as [|u us IH]; cbn; [done|].
  case_decide; [|apply IH]. unfold bind. rewrite Hrec.
  destruct (rec u) as [[|]|]; cbn; [done|apply IH|done].
Qed.

Lemma check_connected_distanceM_eq fuel g self target_item (V : gset nat) d :
  check_connected_distanceM fuel self target_item V d g =
  r ← check_connected_distance fuel (objs g) self target_item V d;
  Some (r, g).
Proof.
  revert self V d. induction fuel as [|fuel IH]; intros self V d; [done|].
  cbn [check_connected_distanceM check_connected_distance].
  unfold bind, get_item, get_neighbours.
  destruct (objs g !! self) as [x|] eqn:Hx; cbn; [|done].
  case_decide; [done|]. case_decide; [done|]. rewrite Hx. cbn.
  apply distance_anyM_eq. intros u. apply IH.
Qed.

Lemma connectedM_eq g a b :
  connectedM a b g = r ← connected g a b; Some (r, g).
Proof.
  unfold connectedM, connected, bind, get_vertices.
  destruct (vertices g !! a) as [va|]; [|done].
  destruct (vertices g !! b) as [vb|]; [|done].
  rewrite check_connectedM_eq.
  by destruct (check_connected fuel0 (objs g) va b ∅ 0) as [[r V]|].
Qed.

Lemma connected_pathM_eq g a b max_depth :
  connected_pathM a b max_depth g =
  r ← connected_path g a b max_depth; Some (r, g).
Proof.
  unfold connected_pathM, connected_path. unfold bind at 1.
  unfold get_vertices.
  destruct (vertices g !! a) as [va|]; [|done].
  destruct (vertices g !! b) as [vb|]; [|done].
  case_decide; unfold bind; rewrite check_connected_pathM_eq;
    match goal with
    | |- context [check_connected_path ?f ?hh ?v ?t ?s ?d ?m] =>
        destruct (check_connected_path f hh v t s d m)
    end; done.
Qed.

Lemma shortest_pathM_eq g a b :
  shortest_pathM a b g = r ← shortest_path g a b; Some (r, g).
Proof.
  unfold shortest_pathM, shortest_path, bind. rewrite connected_pathM_eq.
  by destruct (connected_path g a b 20) as [[[|p ps]|]|].
Qed.

Lemma connected_distanceM_eq g a b d :
  connected_distanceM a b d g = r ← connected_distance g a b d; Some (r, g).
Proof.
  unfold connected_distanceM, connected_distance. case_decide; [done|].
  unfold bind, get_vertices.
  destruct (vertices g !! a) as [va|]; [|done].
  destruct (vertices g !! b) as [vb|]; [|done].
  apply check_connected_distanceM_eq.
Qed.

Lemma get_neighbours_valid g v :
  (v < length (objs g))%nat →
  get_neighbours v g = Some (nbrs (objs g) v, g).
Proof.
  intros Hv. unfold get_neighbours, nbrs.
  by destruct (lookup_lt_is_Some_2 _ _ Hv) as [x ->].
Qed.

Lemma any_itemM_eq g a (us : list nat) :
  (∀ u, u ∈ us → (u < length (objs g))%nat) →
  any_itemM a us g =
  Some (existsb (λ u, bool_decide (item_at (objs g) u = Some a)) us, g).
Proof.
  induction us as [|u us IH]; intros Hus; cbn; [done|].
  unfold bind, get_item, item_at.
  destruct (lookup_lt_is_Some_2 (objs g) u) as [x ->]; [apply Hus; by left|].
  cbn. case_decide as Hd.
  - by rewrite bool_decide_eq_true_2 by congruence.
  - rewrite bool_decide_eq_false_2 by congruence. cbn.
    apply IH. intros u' Hu'. apply Hus. by right.
Qed.

Lemma map_prog_eq {A B} (f : A → prog B) (f' : A → B) g (l : list A) :
  (∀ x, x ∈ l → f x g = Some (f' x, g)) →
  map_prog f l g = Some (f' <$> l, g).
Proof.
  induction l as [|x l IH]; intros Hf; cbn; [done|].
  unfold bind. rewrite Hf by (by left). rewrite IH; [done|].
  intros y Hy. apply Hf. by right.
Qed.

Lemma items_eq g (us : list nat) :
  (∀ u, u ∈ us → (u < length (objs g))%nat) →
  map_prog get_item us g = Some (omap (item_at (objs g)) us, g).
Proof.
  induction us as [|u us IH]; intros Hus; [done|].
  cbn [map_prog omap list_omap]. unfold bind at 1. unfold get_item at 1.
  unfold item_at at 1.
  destruct (lookup_lt_is_Some_2 (objs g) u) as [x ->]; [apply Hus; by left|].
  cbn [mbind option_bind fmap option_fmap option_map].
  unfold bind. rewrite IH; [done|]. intros u' Hu'. apply Hus. by right.
Qed.

Lemma adjacentM_eq g a b :
  built g → adjacentM a b g = Some (adjacent g a b, g).
Proof.
  intros Hb. unfold adjacentM, adjacent, bind, get_vertices.
  destruct (vertices g !! a) as [va|] eqn:Ea; [|done].
  destruct (vertices g !! b) as [vb|] eqn:Eb; [|done].
  rewrite get_neighbours_valid by (by eapply built_vertex_lt).
  apply any_itemM_eq. apply (built_wf g Hb).
Qed.

Lemma list_neighboursM_eq g a :
  built g → list_neighboursM a g = Some (list_neighbours g a, g).
Proof.
  intros Hb. unfold list_neighboursM, list_neighbours, bind, get_vertices.
  destruct (vertices g !! a) as [va|] eqn:Ea; [|done].
  rewrite get_neighbours_valid by (by eapply built_vertex_lt).
  rewrite items_eq; [done|]. apply (built_wf g Hb).
Qed.

Lemma degreesM_eq g : built g → degreesM g = Some (degrees g, g).
Proof.
  intros Hb. unfold degreesM, degrees, bind, get_vertices.
  apply (map_prog_eq _ (λ kv, length (nbrs (objs g) kv.2))).
  intros [k v] Hin%elem_of_map_to_list. unfold bind. cbn.
  by rewrite get_neighbours_valid by (by eapply built_vertex_lt).
Qed.

(** The programs and the summary [step] agree on every call of a built
    graph: same outcome, same store afterwards. *)
Lemma execM_step g c : built g → execM c g = step g c.
Proof.
  intros Hb. destruct c; cbn [execM step]; unfold bind.
  - done.
  - unfold add_edgeM, add_edge, bind, get_vertices.
    destruct (vertices g !! item1) as [v1|]; [|done].
    destruct (vertices g !! item2) as [v2|]; done.
  - by rewrite adjacentM_eq.
  - by rewrite list_neighboursM_eq.
  - unfold num_edgesM, bind. by rewrite degreesM_eq.
  - unfold max_degreeM, max_degree, bind. rewrite degreesM_eq by done.
    by destruct (degrees g).
  - rewrite connectedM_eq. by destruct (connected g item1 item2).
  - rewrite connected_pathM_eq.
    by destruct (connected_path g item1 item2 max_depth).
  - rewrite shortest_pathM_eq. by destruct (shortest_path g item1 item2).
  - rewrite connected_distanceM_eq.
    by destruct (connected_distance g item1 item2 d).
Qed.

(** C10. Run on the store of a built graph, every query ([adjacent],
    [list_neighbours], [num_edges], [max_degree], [connected],
    [connected_path], [shortest_path], [connected_distance]) ends, with a
    value or an exception, and the store it hands back is the one it was
    given: the dictionary and every vertex, with its item and its neighbour
    set, are as before.  The traversals only change the [visited], [path]
    and [final_path] containers that the query made for itself. *)
Theorem query_leaves_store g c :
  built g → is_query c = true → ∃ r, execM c g = Some (r, g).
Proof.
  intros Hb Hq. rewrite execM_step by done. by apply query_leaves_graph.
Qed.

End Properties.

(** ** The properties on the example graphs *)

Lemma connected_spec_chain :
  built chain ∧ vertices chain !! 1 = Some 0 ∧ vertices chain !! 4 = Some 3
  ∧ ∃ r, connected chain 1 4 = Some r
      ∧ (r = true →
         ∃ w p, simple_path (objs chain) 0 w p ∧ item_at (objs chain) w = Some 4
                ∧ (length p ≤ 21)%nat)
      ∧ ((length (objs chain) ≤ 21)%nat →
         (r = true ↔
          ∃ w, rtc (edge (objs chain)) 0 w ∧ item_at (objs chain) w = Some 4)).
Proof.
  assert (built chain) as Hb by apply run_built.
  split_and!; [done|reflexivity|reflexivity|].
  apply (connected_spec chain 1 4 0 3); [done|reflexivity|reflexivity].
Defined.

(** C1, as stated, fails on the ring: 0 and 21 are joined by the simple path
    0 - 20 - 21 of two edges, any two vertices are within 11 edges of each
    other, and [connected(0, 21)] returns false.  The search first walks
    round the ring from 0, reaches 20 at depth 20, where the call for 21 is
    cut off by the depth guard, and on its way back finds 20 already in
    [visited]. *)
Lemma connected_ring_counterexample :
  built ring
  ∧ vertices ring !! 0 = Some 0 ∧ vertices ring !! 21 = Some 21
  ∧ simple_path (objs ring) 0 21 [0; 20; 21]
  ∧ item_at (objs ring) 21 = Some 21
  ∧ Forall (λ u, Forall (λ w, w ∈ ball (objs ring) 11 u) (seq 0 22)) (seq 0 22)
  ∧ length (objs ring) = 22
  ∧ connected ring 0 21 = Some false.
Proof.
  split_and!.
  - apply run_built.
  - vm_compute. reflexivity.
  - vm_compute. reflexivity.
  - split_and!; [reflexivity|reflexivity| |].
    + cbn [walk]. unfold edge. split_and!; try done.
      * apply (bool_decide_unpack _). vm_compute. exact I.
      * apply (bool_decide_unpack _). vm_compute. exact I.
    + apply (bool_decide_unpack _). vm_compute. exact I.
  - vm_compute. reflexivity.
  - apply (bool_decide_unpack _). vm_compute. exact I.
  - vm_compute. reflexivity.
  - vm_compute. reflexivity.
Qed.

(** The answer of [connected] depends on the order in which the neighbour
    set is iterated: with the closing edge first, the same ring answers
    true. *)
Example connected_ring_other_order : connected ring' 0 21 = Some true.
Proof. vm_compute. reflexivity. Qed.

(** The bounded search and the path enumeration do find the way on the ring. *)
Example ring_other_queries :
  connected_distance ring 0 21 2 = Some true
  ∧ shortest_path ring 0 21 = Some (Some [0; 20; 21]).
Proof. split; vm_compute; reflexivity. Qed.

Lemma connected_distance_zero_chain :
  built chain
  ∧ ∃ r, connected_distance chain 2 2 0 = Some r
         ∧ (r = true ↔ 2 = 2 ∧ is_Some (vertices chain !! 2)).
Proof.
  assert (built chain) as Hb by apply run_built.
  split; [done|]. apply (connected_distance_zero chain 2 2 Hb).
Defined.

(** C2, as stated, fails for an item that is not a vertex: on the empty graph
    [connected_distance(7, 7, 0)] is false although [7 == 7]. *)
Lemma connected_distance_zero_counterexample :
  ¬ (connected_distance (Item:=nat) empty_graph 7 7 0 = Some true ↔ 7 = 7).
Proof. intros [_ Hc]. specialize (Hc eq_refl). vm_compute in Hc. done. Qed.

Lemma add_edge_spec_chain :
  built chain ∧ 1 ≠ 3
  ∧ ((add_edge chain 1 3).1 = Raises ValueError ↔
       vertices chain !! 1 = None ∨ vertices chain !! 3 = None)
  ∧ ((add_edge chain 1 3).1 = Raises ValueError → (add_edge chain 1 3).2 = chain)
  ∧ (∀ v1 v2,
       vertices chain !! 1 = Some v1 → vertices chain !! 3 = Some v2 →
       let g' := (add_edge chain 1 3).2 in
       (add_edge chain 1 3).1 = Returns tt
       ∧ vertices g' = vertices chain
       ∧ length (objs g') = length (objs chain)
       ∧ (∀ w, item_at (objs g') w = item_at (objs chain) w)
       ∧ v2 ∈ nbrs (objs g') v1 ∧ v1 ∈ nbrs (objs g') v2
       ∧ adjacent g' 1 3 = true ∧ adjacent g' 3 1 = true
       ∧ (∀ w u, u ∈ nbrs (objs g') w ↔
                 u ∈ nbrs (objs chain) w ∨ (w = v1 ∧ u = v2)
                 ∨ (w = v2 ∧ u = v1))
       ∧ (∀ w, NoDup (nbrs (objs g') w))
       ∧ nbrs (objs g') v1 = set_add v2 (nbrs (objs chain) v1)
       ∧ nbrs (objs g') v2 = set_add v1 (nbrs (objs chain) v2)
       ∧ (∀ w, w ≠ v1 → w ≠ v2 → nbrs (objs g') w = nbrs (objs chain) w)
       ∧ add_edge g' 1 3 = (Returns tt, g')).
Proof.
  assert (built chain) as Hb by apply run_built.
  assert (1 ≠ 3) as Hne by lia.
  split; [done|]. split; [done|]. apply (add_edge_spec chain 1 3 Hb Hne).
Defined.

Lemma adjacent_symmetric_chain :
  built_fresh chain ∧ adjacent chain 2 3 = adjacent chain 3 2.
Proof.
  assert (built_fresh chain) as Hb.
  { apply run_built_fresh. vm_compute. reflexivity. }
  split; [done|]. apply (adjacent_symmetric chain 2 3 Hb).
Defined.

(** C4, as stated, fails once [add_vertex] is called for an item that is
    present: the new vertex of 1 has no neighbour, and the old one is still
    in the neighbour set of 2. *)
Lemma adjacent_readded_counterexample :
  built readded ∧ adjacent readded 1 2 ≠ adjacent readded 2 1.
Proof. split; [apply run_built|]. vm_compute. done. Qed.

Lemma built_pre_invariants_chain :
  built_pre chain
  ∧ (∀ k v, vertices chain !! k = Some v → item_at (objs chain) v = Some k)
  ∧ (∀ A B, A ∈ nbrs (objs chain) B ↔ B ∈ nbrs (objs chain) A)
  ∧ (∀ A, A ∉ nbrs (objs chain) A).
Proof.
  assert (built_pre chain) as Hb.
  { apply run_built_pre. vm_compute. reflexivity. }
  split; [done|]. apply (built_pre_invariants chain Hb).
Defined.

Lemma acceptance_rule_example :
  4 = 4 ∧ ([1; 2; 3; 4] ∉ [[1; 5; 4]])
  ∧ ([[1; 5; 4]] = [] →
       visit_target 4 4 [1; 2; 3; 4] [[1; 5; 4]] = [[1; 5; 4]] ++ [[1; 2; 3; 4]])
  ∧ (∀ last_path, last [[1; 5; 4]] = Some last_path →
       (visit_target 4 4 [1; 2; 3; 4] [[1; 5; 4]]
          = [[1; 5; 4]] ++ [[1; 2; 3; 4]] ↔
        (matching [1; 2; 3; 4] last_path
           < length [1; 2; 3; 4] - length [1; 2; 3; 4] / 3)%nat)
       ∧ ((¬ (matching [1; 2; 3; 4] last_path
                < length [1; 2; 3; 4] - length [1; 2; 3; 4] / 3)%nat) →
          visit_target 4 4 [1; 2; 3; 4] [[1; 5; 4]] = [[1; 5; 4]])).
Proof.
  assert ([1; 2; 3; 4] ∉ [[1; 5; 4]]) as Hnew.
  { intros Hin%list_elem_of_singleton. discriminate Hin. }
  split; [done|]. split; [done|].
  apply (acceptance_rule 4 4 [1; 2; 3; 4] [[1; 5; 4]] eq_refl Hnew).
Defined.



(** The rule at work: the second path of the ring from 0 to 1 shares only its
    first item with the first one and is kept; a path that shares three of
    its four items with the last recorded one is dropped. *)
Example visit_target_runs :
  visit_target 4 4 [1; 2; 3; 4] [[1; 5; 4]] = [[1; 5; 4]; [1; 2; 3; 4]]
  ∧ visit_target 4 4 [1; 2; 3; 4] [[1; 2; 3; 5; 4]] = [[1; 2; 3; 5; 4]].
Proof. split; vm_compute; reflexivity. Qed.

Lemma shortest_path_spec_chain :
  built chain
  ∧ ∃ r, connected_path chain 1 4 20 = Some r ∧
      match r with
      | None | Some [] => shortest_path chain 1 4 = Some None
      | Some paths =>
          ∃ p, shortest_path chain 1 4 = Some (Some p)
               ∧ p ∈ paths ∧ head p = Some 1 ∧ last p = Some 4
               ∧ ∀ q, q ∈ paths → (length p ≤ length q)%nat
      end.
Proof.
  assert (built chain) as Hb by apply run_built.
  split; [done|]. apply (shortest_path_spec chain 1 4 Hb).
Defined.

Lemma connected_path_no_duplicates_ring :
  built ring
  ∧ ∃ r, connected_path ring 0 1 20 = Some r
         ∧ ∀ paths, r = Some paths → NoDup paths.
Proof.
  assert (built ring) as Hb by apply run_built.
  split; [done|]. apply (connected_path_no_duplicates ring 0 1 20 Hb).
Defined.

Lemma query_leaves_store_chain :
  built chain ∧ is_query (ShortestPath 1 4) = true
  ∧ ∃ r, execM (ShortestPath 1 4) chain = Some (r, chain).
Proof.
  assert (built chain) as Hb by apply run_built.
  split; [done|]. split; [done|].
  apply (query_leaves_store chain (ShortestPath 1 4) Hb eq_refl).
Defined.

(** The two mutators do write to the store. *)
Example mutators_change_store :
  (∃ r g', execM (AddEdge 1 3) chain = Some (r, g') ∧ g' ≠ chain)
  ∧ (∃ r g', execM (AddVertex 9) chain = Some (r, g') ∧ g' ≠ chain).
Proof.
  split.
  - eexists _, _. split; [reflexivity|].
    intros Heq. apply (f_equal (λ g, length (nbrs (objs g) 0))) in Heq.
    vm_compute in Heq. discriminate Heq.
  - eexists _, _. split; [reflexivity|].
    intros Heq. apply (f_equal (λ g, length (objs g))) in Heq.
    vm_compute in Heq. discriminate Heq.
Qed.

Lemma query_leaves_graph_chain :
  built chain ∧ is_query (ShortestPath 1 4) = true
  ∧ ∃ r, step chain (ShortestPath 1 4) = Some (r, chain).
Proof.
  assert (built chain) as Hb by apply run_built.
  split; [done|]. split; [done|].
  apply (query_leaves_graph chain (ShortestPath 1 4) Hb eq_refl).
Defined.

(** The end-to-end example of the specification, on the road A - B - C - D. *)
Example chain_queries :
  connected chain 1 4 = Some true
  ∧ shortest_path chain 1 4 = Some (Some [1; 2; 3; 4])
  ∧ connected_distance chain 1 4 2 = Some false
  ∧ connected_distance chain 1 4 3 = Some true
  ∧ list_neighbours chain 2 = Some [1; 3]
  ∧ adjacent chain 1 3 = false
  ∧ num_edges chain = 3
  ∧ max_degree chain = Returns 2.
Proof. split_and!; vm_compute; reflexivity. Qed.

(** [ring] and [ring'] are the same graph, iterated differently. *)
Example ring_reordered : reordered ring ring'.
Proof.
  apply reordered_pointwise.
  - vm_compute. reflexivity.
  - apply (bool_decide_unpack _). vm_compute. exact I.
Qed.

(** ** The further properties on the example graphs *)

Lemma add_edge_then_adjacent_chain :
  built chain ∧ is_Some (vertices chain !! 1) ∧ is_Some (vertices chain !! 3)
  ∧ (add_edge chain 1 3).1 = Returns tt
  ∧ adjacent (add_edge chain 1 3).2 1 3 = true
  ∧ adjacent (add_edge chain 1 3).2 3 1 = true.
Proof.
  assert (built chain) as Hb by apply run_built.
  assert (is_Some (vertices chain !! 1)) as H1
    by (exists 0; vm_compute; reflexivity).
  assert (is_Some (vertices chain !! 3)) as H3
    by (exists 2; vm_compute; reflexivity).
  do 3 (split; [done|]).
  apply (add_edge_then_adjacent chain 1 3 Hb H1 H3).
Defined.

Lemma adjacent_preserved_chain :
  built chain ∧ adjacent chain 1 2 = true
  ∧ (∀ a b, adjacent (add_edge chain a b).2 1 2 = true)
  ∧ (∀ it, vertices chain !! it = None →
           adjacent (add_vertex chain it) 1 2 = true).
Proof.
  assert (built chain) as Hb by apply run_built.
  assert (adjacent chain 1 2 = true) as Ha by (vm_compute; reflexivity).
  do 2 (split; [done|]).
  apply (adjacent_preserved chain 1 2 Hb Ha).
Defined.

Lemma list_neighbours_adjacent_chain :
  built chain ∧ list_neighbours chain 2 = Some [1; 3]
  ∧ (3 ∈ [1; 3] ↔ adjacent chain 3 2 = true).
Proof.
  assert (built chain) as Hb by apply run_built.
  assert (list_neighbours chain 2 = Some [1; 3]) as Hl
    by (vm_compute; reflexivity).
  do 2 (split; [done|]).
  apply (list_neighbours_adjacent chain 2 3 [1; 3] Hb Hl).
Defined.

Lemma list_neighbours_NoDup_chain :
  built_fresh chain ∧ vertices chain !! 2 = Some 1
  ∧ list_neighbours chain 2 = Some [1; 3]
  ∧ NoDup [1; 3] ∧ length [1; 3] = length (nbrs (objs chain) 1).
Proof.
  assert (built_fresh chain) as Hb.
  { apply run_built_fresh. vm_compute. reflexivity. }
  assert (vertices chain !! 2 = Some 1) as Hv
    by (vm_compute; reflexivity).
  assert (list_neighbours chain 2 = Some [1; 3]) as Hl
    by (vm_compute; reflexivity).
  do 3 (split; [done|]).
  apply (list_neighbours_NoDup chain 2 1 [1; 3] Hb Hv Hl).
Defined.

Lemma num_edges_add_edge_chain :
  built chain ∧ 1 ≠ 3
  ∧ is_Some (vertices chain !! 1) ∧ is_Some (vertices chain !! 3)
  ∧ adjacent chain 1 3 = false ∧ adjacent chain 3 1 = false
  ∧ num_edges (add_edge chain 1 3).2 = S (num_edges chain).
Proof.
  assert (built chain) as Hb by apply run_built.
  assert (1 ≠ 3) as Hne by lia.
  assert (is_Some (vertices chain !! 1)) as H1
    by (exists 0; vm_compute; reflexivity).
  assert (is_Some (vertices chain !! 3)) as H3
    by (exists 2; vm_compute; reflexivity).
  assert (adjacent chain 1 3 = false) as Ha by (vm_compute; reflexivity).
  assert (adjacent chain 3 1 = false) as Ha' by (vm_compute; reflexivity).
  do 6 (split; [done|]).
  apply (num_edges_add_edge chain 1 3 Hb Hne H1 H3 Ha Ha').
Defined.

Lemma num_edges_add_vertex_chain :
  built chain ∧ vertices chain !! 9 = None
  ∧ num_edges (add_vertex chain 9) = num_edges chain
  ∧ num_edges (Item:=nat) empty_graph = 0.
Proof.
  assert (built chain) as Hb by apply run_built.
  assert (vertices chain !! 9 = None) as Hn
    by (vm_compute; reflexivity).
  do 2 (split; [done|]).
  apply (num_edges_add_vertex chain 9 Hb Hn).
Defined.

(** The records of a small file: a triangle and a pendant edge. *)
Lemma read_records_spec_example :
  built_fresh (Item:=nat) empty_graph
  ∧ ∃ g', read_records empty_graph [(1, 2); (2, 3); (3, 1); (3, 4)]
            = (Returns tt, g')
          ∧ built_fresh g'
          ∧ (∀ a b, (a, b) ∈ [(1, 2); (2, 3); (3, 1); (3, 4)] →
               adjacent g' a b = true ∧ adjacent g' b a = true)
          ∧ (∀ x y, adjacent empty_graph x y = true → adjacent g' x y = true).
Proof.
  assert (built_fresh (Item:=nat) empty_graph) as Hb by constructor.
  split; [done|].
  apply (read_records_spec empty_graph [(1, 2); (2, 3); (3, 1); (3, 4)] Hb).
Defined.

Lemma read_records_invariants_example :
  built_pre (Item:=nat) empty_graph
  ∧ Forall (λ r : nat * nat, r.1 ≠ r.2) [(1, 2); (2, 3); (3, 1); (3, 4)]
  ∧ let g' := (read_records empty_graph [(1, 2); (2, 3); (3, 1); (3, 4)]).2 in
    built_pre g' ∧ symmetric (objs g') ∧ loop_free (objs g') ∧ wf_keys g'.
Proof.
  assert (built_pre (Item:=nat) empty_graph) as Hb by constructor.
  assert (Forall (λ r : nat * nat, r.1 ≠ r.2)
            [(1, 2); (2, 3); (3, 1); (3, 4)]) as Hr.
  { repeat constructor; cbn; lia. }
  do 2 (split; [done|]).
  apply (read_records_invariants empty_graph _ Hb Hr).
Defined.

Lemma connected_reflexive_chain :
  built chain
  ∧ (connected chain 2 2 = Some true ↔ is_Some (vertices chain !! 2))
  ∧ (vertices chain !! 2 = None ∨ vertices chain !! 7 = None →
     connected chain 2 7 = Some false).
Proof.
  assert (built chain) as Hb by apply run_built.
  split; [done|]. apply (connected_reflexive chain 2 7 Hb).
Defined.

Lemma adjacent_connected_ring :
  built_fresh ring ∧ adjacent ring 0 20 = true
  ∧ connected ring 0 20 = Some true ∧ connected ring 20 0 = Some true.
Proof.
  assert (built_fresh ring) as Hb.
  { apply run_built_fresh. vm_compute. reflexivity. }
  assert (adjacent ring 0 20 = true) as Ha by (vm_compute; reflexivity).
  do 2 (split; [done|]).
  apply (adjacent_connected ring 0 20 Hb Ha).
Defined.

Lemma connected_distance_spec_chain :
  built chain ∧ vertices chain !! 1 = Some 0 ∧ vertices chain !! 4 = Some 3
  ∧ (0 ≤ 3 ≤ 20)%Z
  ∧ ∃ r, connected_distance chain 1 4 3 = Some r
         ∧ (r = true ↔
            ∃ w p, simple_path (objs chain) 0 w p
                   ∧ item_at (objs chain) w = Some 4
                   ∧ (Z.of_nat (length p) ≤ 3 + 1)%Z).
Proof.
  assert (built chain) as Hb by apply run_built.
  assert (0 ≤ 3 ≤ 20)%Z as Hd by lia.
  assert (vertices chain !! 1 = Some 0) as H1
    by (vm_compute; reflexivity).
  assert (vertices chain !! 4 = Some 3) as H4
    by (vm_compute; reflexivity).
  do 4 (split; [done|]).
  apply (connected_distance_spec chain 1 4 0 3 3 Hb H1 H4 Hd).
Defined.

Lemma connected_distance_out_of_range_chain :
  built chain ∧ (21 < 0 ∨ 20 < 21)%Z
  ∧ connected_distance chain 2 2 21 = Some false.
Proof.
  assert (built chain) as Hb by apply run_built.
  assert (21 < 0 ∨ 20 < 21)%Z as Hd by lia.
  do 2 (split; [done|]).
  apply (connected_distance_out_of_range chain 2 2 21 Hb Hd).
Defined.

Lemma connected_distance_monotone_chain :
  built chain ∧ (3 ≤ 5 ≤ 20)%Z
  ∧ connected_distance chain 1 4 3 = Some true
  ∧ connected_distance chain 1 4 5 = Some true.
Proof.
  assert (built chain) as Hb by apply run_built.
  assert (3 ≤ 5 ≤ 20)%Z as Hd by lia.
  assert (connected_distance chain 1 4 3 = Some true) as Ht
    by (vm_compute; reflexivity).
  do 3 (split; [done|]).
  apply (connected_distance_monotone chain 1 4 3 5 Hb Hd Ht).
Defined.

Lemma connected_implies_distance_chain :
  built chain ∧ connected chain 1 4 = Some true
  ∧ connected_distance chain 1 4 20 = Some true.
Proof.
  assert (built chain) as Hb by apply run_built.
  assert (connected chain 1 4 = Some true) as Hc by (vm_compute; reflexivity).
  do 2 (split; [done|]).
  apply (connected_implies_distance chain 1 4 Hb Hc).
Defined.

Lemma connected_path_cap_ring :
  built ring ∧ is_Some (vertices ring !! 0) ∧ is_Some (vertices ring !! 1)
  ∧ ((0 ≤ 0)%Z → connected_path ring 0 1 0 = connected_path ring 0 1 20)
  ∧ ((0 < 0)%Z → connected_path ring 0 1 0 = Some (Some [])).
Proof.
  assert (built ring) as Hb by apply run_built.
  assert (is_Some (vertices ring !! 0)) as H0
    by (exists 0; vm_compute; reflexivity).
  assert (is_Some (vertices ring !! 1)) as H1
    by (exists 1; vm_compute; reflexivity).
  do 3 (split; [done|]).
  apply (connected_path_cap ring 0 1 0 Hb H0 H1).
Defined.

Lemma connected_path_simple_chain :
  built chain ∧ connected_path chain 1 4 20 = Some (Some [[1; 2; 3; 4]])
  ∧ [1; 2; 3; 4] ∈ [[1; 2; 3; 4]]
  ∧ NoDup [1; 2; 3; 4] ∧ (1 ≤ length [1; 2; 3; 4] ≤ 21)%nat.
Proof.
  assert (built chain) as Hb by apply run_built.
  assert (connected_path chain 1 4 20 = Some (Some [[1; 2; 3; 4]])) as Hc
    by (vm_compute; reflexivity).
  assert ([1; 2; 3; 4] ∈ [[1; 2; 3; 4]]) as Hin by left.
  do 3 (split; [done|]).
  apply (connected_path_simple chain 1 4 20 _ _ Hb Hc Hin).
Defined.

Lemma connected_path_follows_edges_chain :
  built_fresh chain
  ∧ connected_path chain 1 4 20 = Some (Some [[1; 2; 3; 4]])
  ∧ [1; 2; 3; 4] ∈ [[1; 2; 3; 4]]
  ∧ [1; 2; 3; 4] !! 1 = Some 2 ∧ [1; 2; 3; 4] !! 2 = Some 3
  ∧ adjacent chain 2 3 = true.
Proof.
  assert (built_fresh chain) as Hb.
  { apply run_built_fresh. vm_compute. reflexivity. }
  assert (connected_path chain 1 4 20 = Some (Some [[1; 2; 3; 4]])) as Hc
    by (vm_compute; reflexivity).
  assert ([1; 2; 3; 4] ∈ [[1; 2; 3; 4]]) as Hin by left.
  do 5 (split; [done|]).
  apply (connected_path_follows_edges chain 1 4 20 _ _ 1 2 3 Hb Hc Hin
           eq_refl eq_refl).
Defined.

Lemma shortest_path_self_chain :
  built chain ∧ is_Some (vertices chain !! 2)
  ∧ shortest_path chain 2 2 = Some (Some [2]).
Proof.
  assert (built chain) as Hb by apply run_built.
  assert (is_Some (vertices chain !! 2)) as H2
    by (exists 1; vm_compute; reflexivity).
  do 2 (split; [done|]).
  apply (shortest_path_self chain 2 Hb H2).
Defined.

Lemma shortest_path_iff_distance_ring :
  built_fresh ring
  ∧ is_Some (vertices ring !! 0) ∧ is_Some (vertices ring !! 21)
  ∧ ∃ r, shortest_path ring 0 21 = Some r
         ∧ (is_Some r ↔ connected_distance ring 0 21 20 = Some true).
Proof.
  assert (built_fresh ring) as Hb.
  { apply run_built_fresh. vm_compute. reflexivity. }
  assert (is_Some (vertices ring !! 0)) as H0
    by (exists 0; vm_compute; reflexivity).
  assert (is_Some (vertices ring !! 21)) as H21
    by (exists 21; vm_compute; reflexivity).
  do 3 (split; [done|]).
  apply (shortest_path_iff_distance ring 0 21 Hb H0 H21).
Defined.
